(** * Maze Escape: the maze grid and the moving agent

    A shallow embedding of [src/MazeMap.ts] and [src/Player.ts].

    - JavaScript numbers that hold pixel coordinates are rationals ([Q])
      with exact arithmetic; cell indices, tile codes and UTF-16 code
      units are integers ([Z]).  Division by zero (Infinity or NaN in
      JavaScript) is outside this model, so the properties of the agent
      that look at [x / tileSize] are stated for a non-zero tile size.
    - An array is a [list]; reading past its end gives [undefined], and
      reading a property of [undefined] throws a [TypeError].
    - A method that reads or writes [this] is a function from the object
      to a completion carrying the result and the object afterwards. *)

From Stdlib Require Import ZArith QArith Qround Lia Lqa Bool List String Ascii.
From stdpp Require Import base list sets.
Import ListNotations.

#[local] Open Scope Z_scope.

(** ** JavaScript values and completions *)

Module Js.

Inductive value : Type :=
| VUndefined
| VBool (b : bool)
| VNum (n : Z).

(** [ToBoolean]: what [if], [!] and [&&] look at. *)
Definition truthy (v : value) : bool :=
  match v with
  | VUndefined => false
  | VBool b => b
  | VNum n => negb (n =? 0)
  end.

(** [v === n] for a number literal [n]. *)
Definition strict_eq (v : value) (n : Z) : bool :=
  match v with
  | VNum k => k =? n
  | _ => false
  end.

Inductive error : Type := TypeError.

Inductive completion (A : Type) : Type :=
| Normal (a : A)
| Throw (e : error).
Arguments Normal {A} a.
Arguments Throw {A} e.

#[global] Instance completion_ret : MRet completion := fun A a => Normal a.
#[global] Instance completion_bind : MBind completion := fun A B k c =>
  match c with
  | Normal a => k a
  | Throw e => Throw e
  end.

(** [arr[i]] on an array: [None] stands for [undefined]. *)
Definition at_index {A} (arr : list A) (i : Z) : option A :=
  if i <? 0 then None else arr !! Z.to_nat i.

(** [arr[i]] on an array of numbers, as a value. *)
Definition elem (arr : list Z) (i : Z) : value :=
  match at_index arr i with
  | Some n => VNum n
  | None => VUndefined
  end.

(** Using the result of [arr[i]] as an object: [undefined] has no
    properties, so [undefined[j]] and [undefined.length] throw. *)
Definition object {A} (o : option A) : completion A :=
  match o with
  | Some a => Normal a
  | None => Throw TypeError
  end.

(** [arr.length]. *)
Definition len {A} (arr : list A) : Z := Z.of_nat (length arr).

(** [Number.isInteger]. *)
Definition Number_isInteger (q : Q) : bool :=
  Qeq_bool q (inject_Z (Qfloor q)).

(** [Math.floor]. *)
Definition Math_floor (q : Q) : Z := Qfloor q.

(** UTF-16 code units of a string given as UTF-8 bytes (code points
    below U+10000, which is all the maze layouts use). *)
Fixpoint utf16 (bytes : list Z) : list Z :=
  match bytes with
  | [] => []
  | b0 :: rest =>
      if b0 <? 0x80 then b0 :: utf16 rest
      else if b0 <? 0xE0 then
        match rest with
        | b1 :: rest' => ((b0 - 0xC0) * 64 + (b1 - 0x80)) :: utf16 rest'
        | _ => []
        end
      else
        match rest with
        | b1 :: b2 :: rest' =>
            ((b0 - 0xE0) * 4096 + (b1 - 0x80) * 64 + (b2 - 0x80)) :: utf16 rest'
        | _ => []
        end
  end.

Definition str (s : string) : list Z :=
  utf16 (List.map (fun a => Z.of_nat (nat_of_ascii a)) (list_ascii_of_string s)).

(** [s.split(sep)] for a one-unit separator. *)
Fixpoint split (sep : Z) (s : list Z) : list (list Z) :=
  match s with
  | [] => [[]]
  | c :: rest =>
      if c =? sep then [] :: split sep rest
      else match split sep rest with
           | r :: rs => (c :: r) :: rs
           | [] => [[c]]
           end
  end.

End Js.

(** ** The drawing surface

    The 2-D context is an external collaborator: what the code does to it
    is the sequence of calls it makes. *)

Module Canvas.

Inductive call : Type :=
| fillStyle (color : string)           (* [ctx.fillStyle = color] *)
| fillRect (x y w h : Q)
| clearRect (x y w h : Q)
| beginPath
| arc (x y radius startAngle : Q) (endAngleOverPi : Q)
                                       (* end angle [endAngleOverPi * Math.PI] *)
| fill.

(** [canvas.width] and [canvas.height]. *)
Record size : Type := mkSize { width : Q; height : Q }.

End Canvas.

(** ** Player.ts: the direction enumeration *)

Inductive Direction : Type := UP | DOWN | LEFT | RIGHT.

#[global] Instance Direction_eq_dec : EqDecision Direction.
Proof. solve_decision. Defined.

(** ** MazeMap.ts *)

Module MazeMap.

Import Js.

(** Tile codes stored in the grid. *)
Definition Empty : Z := 0.
Definition Wall : Z := 1.
Definition Marker : Z := 2.
Definition Exit : Z := 3.

(** The fields of the class; the drawing context is left out. *)
Record t : Type := mk {
  map : list (list Z);
  tileSize : Q;
  mapString : list Z;
  startX : Q;
  startY : Q;
  endX : Q;
  endY : Q
}.

Definition set_map (this : t) (m : list (list Z)) : t :=
  mk m (tileSize this) (mapString this) (startX this) (startY this) (endX this) (endY this).

Definition set_start (this : t) (sx sy : Q) : t :=
  mk (map this) (tileSize this) (mapString this) sx sy (endX this) (endY this).

Definition set_end (this : t) (ex ey : Q) : t :=
  mk (map this) (tileSize this) (mapString this) (startX this) (startY this) ex ey.

(** The layout literal of the constructor. *)
Definition literal : list Z := Eval vm_compute in str
"┌────────────┐┌────────────┐
│············││············│
│·┌──┐·┌───┐·││·┌───┐·┌──┐·│
│.│  │·│   │·││·│   │·│  │○│
│·└──┘·└───┘·└┘·└───┘·└──┘·│
│··························│
│·┌──┐·┌┐·┌──────┐·┌┐·┌──┐·│
│·└──┘·││·└──┐┌──┘·││·└──┘·│
│······││····││····││······│
└────┐·│└──┐ ││ ┌──┘│·┌────┘
     │·│┌──┘ └┘ └──┐│·│
     │·││    B     ││·│
     │·││ ┌──==──┐ ││·│
─────┘·└┘ │      │ └┘·└─────
||    ·   │      │   ·     |
─────┐·┌┐ │      │ ┌┐·┌─────
     │·││ └──────┘ ││·│
     │·││          ││·│
     │·││ ┌──────┐ ││·│
┌────┘·└┘ └──┐┌──┘ └┘·└────┐
│············││············│
│·┌──┐·┌───┐·││·┌───┐·┌──┐·│
│·└─┐│·└───┘·└┘·└───┘·│┌─┘·│
│○··││·······X ·······││··E│
└─┐·││·┌┐·┌──────┐·┌┐·││·┌─┘
┌─┘·└┘·││·└──┐┌──┘·││·└┘·└─┐
│······││····││····││······│
│·┌────┘└──┐·││·┌──┘└────┐·│
│·└────────┘·└┘·└────────┘·│
│··························│
└──────────────────────────┘".

(** The body of the inner parsing loop: one character of row [y] at
    column [x]; gives the tile pushed on [line]. *)
Definition parseChar (x y : Z) (char : Z) (this : t) : Z * t :=
  if char =? 0x25CB then (2, this)
  else if char =? 0xB7 then (0, this)
  else if (char =? 0x250C) || (char =? 0x2510) || (char =? 0x2518) || (char =? 0x2514)
          || (char =? 0x2502) || (char =? 0x2500) || (char =? 0x3D) then (1, this)
  else if char =? 0x58 then
    (0, set_start this (inject_Z x * tileSize this + tileSize this / 2)%Q
                       (inject_Z y * tileSize this)%Q)
  else if char =? 0x45 then
    (3, set_end this (inject_Z x * tileSize this + tileSize this / 2)%Q
                     (inject_Z y * tileSize this)%Q)
  else (0, this).

(** [for (let x = 0; x < rows[y].length; x++)]: [chars] is what is left
    of the row from column [x] on. *)
Fixpoint parseLine (y x : Z) (chars : list Z) (line : list Z) (this : t) : list Z * t :=
  match chars with
  | [] => (line, this)
  | char :: chars' =>
      let '(tile, this') := parseChar x y char this in
      parseLine y (x + 1) chars' (line ++ [tile]) this'
  end.

(** [for (let y = 0; y < rows.length; y++)]: [rows] is what is left of
    the rows from row [y] on. *)
Fixpoint parseRows (y : Z) (rows : list (list Z)) (m : list (list Z)) (this : t)
  : list (list Z) * t :=
  match rows with
  | [] => (m, this)
  | r :: rows' =>
      let '(line, this') := parseLine y 0 r [] this in
      parseRows (y + 1) rows' (m ++ [line]) this'
  end.

(** [for (let x = lastCol; x >= 0; x--)] of the fallback search, with
    [k = x + 1] iterations to go.  The assignment [map[y][x] = 3] is only
    reached when [map[y][x]] is 0 or 2, so it never extends a row. *)
Fixpoint scanCols (k : nat) (y : Z) (m : list (list Z)) (this : t)
  : completion (list (list Z) * t) :=
  match k with
  | O => Normal (m, this)
  | S k' =>
      let x := Z.of_nat k' in
      row ← object (at_index m y);
      if strict_eq (elem row x) 0 || strict_eq (elem row x) 2 then
        Normal (<[Z.to_nat y := <[Z.to_nat x := 3]> row]> m,
                set_end this (inject_Z x * tileSize this + tileSize this / 2)%Q
                             (inject_Z y * tileSize this)%Q)
      else scanCols k' y m this
  end.

(** [for (let y = lastRow; y >= 0; y--)], with [k = y + 1] iterations to
    go; [cols] is [lastCol + 1]. *)
Fixpoint scanRows (k : nat) (cols : nat) (m : list (list Z)) (this : t)
  : completion (list (list Z) * t) :=
  match k with
  | O => Normal (m, this)
  | S k' =>
      let y := Z.of_nat k' in
      '(m', this') ← scanCols cols y m this;
      if negb (Qeq_bool (endX this') 0) || negb (Qeq_bool (endY this') 0)
      then Normal (m', this')
      else scanRows k' cols m' this'
  end.

Definition loadMap (this : t) : completion (list (list Z) * t) :=
  let rows := split 10 (mapString this) in
  let '(m, this1) := parseRows 0 rows [] this in
  if Qeq_bool (endX this1) 0 && Qeq_bool (endY this1) 0 then
    let lastRow := len m - 1 in
    row0 ← object (at_index m 0);
    let lastCol := len row0 - 1 in
    scanRows (Z.to_nat (lastRow + 1)) (Z.to_nat (lastCol + 1)) m this1
  else Normal (m, this1).

(** The constructor, for any layout in place of the literal; [map] is
    not read before [loadMap] returns it. *)
Definition construct (layout : list Z) (tileSize : Q) : completion t :=
  let this := mk [] tileSize layout 0 0 0 0 in
  '(m, this') ← loadMap this;
  Normal (set_map this' m).

Definition new (tileSize : Q) : completion t := construct literal tileSize.

Definition getStartPosition (this : t) : Q * Q := (startX this, startY this).

Definition getEndPosition (this : t) : Q * Q := (endX this, endY this).

(** [a && b] where [a] is a row of the grid or [undefined]. *)
Definition and_row (a : option (list Z)) (b : list Z -> bool) : value :=
  match a with
  | None => VUndefined
  | Some r => VBool (b r)
  end.

(** The closing [return false] is for a value outside the enumeration. *)
Definition wallCollision (this : t) (col row : Z) (direction : Direction) : value :=
  match direction with
  | UP => and_row (at_index (map this) (row - 1)) (fun r => strict_eq (elem r col) 1)
  | DOWN => and_row (at_index (map this) (row + 1)) (fun r => strict_eq (elem r col) 1)
  | LEFT => and_row (at_index (map this) row) (fun r => strict_eq (elem r (col - 1)) 1)
  | RIGHT => and_row (at_index (map this) row) (fun r => strict_eq (elem r (col + 1)) 1)
  end.

Definition getTile (this : t) (col row : Z) : completion value :=
  if (row <? 0) || (col <? 0) || (row >=? len (map this)) then Normal (VNum (-1))
  else
    row0 ← object (at_index (map this) 0);
    if col >=? len row0 then Normal (VNum (-1))
    else
      r ← object (at_index (map this) row);
      Normal (elem r col).

Definition isEndPosition (this : t) (col row : Z) : completion bool :=
  if (row <? 0) || (col <? 0) || (row >=? len (map this)) then Normal false
  else
    row0 ← object (at_index (map this) 0);
    if col >=? len row0 then Normal false
    else
      r ← object (at_index (map this) row);
      Normal (strict_eq (elem r col) 3).

(** [setCanvasSize]: the new width and height of the canvas. *)
Definition setCanvasSize (this : t) : completion Canvas.size :=
  row0 ← object (at_index (map this) 0);
  Normal (Canvas.mkSize (inject_Z (len row0) * tileSize this)%Q
                        (inject_Z (len (map this)) * tileSize this)%Q).

(** The [switch] of [draw] for the tile at column [x] of row [y]. *)
Definition drawTile (this : t) (x y : Z) (tile : Z) : list Canvas.call :=
  let ts := tileSize this in
  let px := (inject_Z x * ts)%Q in
  let py := (inject_Z y * ts)%Q in
  if tile =? 0 then
    [Canvas.fillStyle "black"; Canvas.fillRect px py ts ts]
  else if tile =? 1 then
    [Canvas.fillStyle "#1a1a2e"; Canvas.fillRect px py ts ts]
  else if tile =? 2 then
    [Canvas.fillStyle "black"; Canvas.fillRect px py ts ts;
     Canvas.fillStyle "#444";
     Canvas.fillRect (px + ts / 3)%Q (py + ts / 3)%Q (ts / 3)%Q (ts / 3)%Q]
  else if tile =? 3 then
    [Canvas.fillStyle "black"; Canvas.fillRect px py ts ts;
     Canvas.fillStyle "#ff6b6b"; Canvas.beginPath;
     Canvas.arc (px + ts / 2)%Q (py + ts / 2)%Q (ts / 3)%Q 0 2; Canvas.fill]
  else
    [Canvas.fillStyle "black"; Canvas.fillRect px py ts ts].

(** [for (let x = 0; x < this.map[y].length; x++)] of [draw]: [tiles] is
    what is left of row [y] from column [x] on. *)
Fixpoint drawLine (this : t) (y x : Z) (tiles : list Z) : list Canvas.call :=
  match tiles with
  | [] => []
  | tile :: tiles' => drawTile this x y tile ++ drawLine this y (x + 1) tiles'
  end.

(** [for (let y = 0; y < this.map.length; y++)] of [draw]. *)
Fixpoint drawRows (this : t) (y : Z) (rows : list (list Z)) : list Canvas.call :=
  match rows with
  | [] => []
  | r :: rows' => drawLine this y 0 r ++ drawRows this (y + 1) rows'
  end.

Definition draw (this : t) : list Canvas.call := drawRows this 0 (map this).

End MazeMap.

(** ** Player.ts *)

Module Player.

Import Js.

(** The fields of the class; the drawing context is left out. *)
Record t : Type := mk {
  x : Q;
  y : Q;
  speed : Q;
  direction : Direction;
  requestedDirection : Direction;
  tileSize : Q;
  mazeMap : MazeMap.t
}.

Definition set_x (this : t) (v : Q) : t :=
  mk v (y this) (speed this) (direction this) (requestedDirection this)
     (tileSize this) (mazeMap this).

Definition set_y (this : t) (v : Q) : t :=
  mk (x this) v (speed this) (direction this) (requestedDirection this)
     (tileSize this) (mazeMap this).

Definition set_direction (this : t) (d : Direction) : t :=
  mk (x this) (y this) (speed this) d (requestedDirection this)
     (tileSize this) (mazeMap this).

Definition set_requestedDirection (this : t) (d : Direction) : t :=
  mk (x this) (y this) (speed this) (direction this) d
     (tileSize this) (mazeMap this).

(** A method: from [this] to its result and [this] afterwards. *)
Definition method (A : Type) : Type := t -> completion (A * t).

Definition new (x y tileSize : Q) (mazeMap : MazeMap.t) : t :=
  mk x y 2 RIGHT RIGHT tileSize mazeMap.

(** The four-way test of [move] for a request that reverses the
    direction. *)
Definition reverses (direction requested : Direction) : bool :=
  (bool_decide (direction = DOWN) && bool_decide (requested = UP))
  || (bool_decide (direction = UP) && bool_decide (requested = DOWN))
  || (bool_decide (direction = RIGHT) && bool_decide (requested = LEFT))
  || (bool_decide (direction = LEFT) && bool_decide (requested = RIGHT)).

(** [Number.isInteger(col) && Number.isInteger(row) &&
    this.mazeMap.wallCollision(col, row, d)], as a boolean; the call is
    only made with integer [col] and [row]. *)
Definition wallAhead (this : t) (col row : Q) (d : Direction) : bool :=
  Number_isInteger col && Number_isInteger row
  && truthy (MazeMap.wallCollision (mazeMap this) (Qfloor col) (Qfloor row) d).

(** The first half of [move]: which direction is active afterwards. *)
Definition arbitrate (this : t) (col row : Q) : t :=
  if bool_decide (requestedDirection this <> direction this) then
    if reverses (direction this) (requestedDirection this) then
      set_direction this (requestedDirection this)
    else if Number_isInteger col && Number_isInteger row
            && negb (truthy (MazeMap.wallCollision (mazeMap this) (Qfloor col) (Qfloor row)
                               (requestedDirection this))) then
      set_direction this (requestedDirection this)
    else this
  else this.

(** The second half of [move]; [if (this.direction)] always holds, the
    directions being non-empty strings. *)
Definition advance (this : t) (col row : Q) : t :=
  if negb (wallAhead this col row (direction this)) then
    match direction this with
    | UP => set_y this (y this - speed this)%Q
    | DOWN => set_y this (y this + speed this)%Q
    | LEFT => set_x this (x this - speed this)%Q
    | RIGHT => set_x this (x this + speed this)%Q
    end
  else this.

Definition move : method unit := fun this =>
  let col := (x this / tileSize this)%Q in
  let row := (y this / tileSize this)%Q in
  Normal (tt, advance (arbitrate this col row) col row).

Definition changeDirection (direction : Direction) : method unit := fun this =>
  Normal (tt, set_requestedDirection this direction).

Definition checkWinCondition : method bool := fun this =>
  let row := Math_floor (y this / tileSize this)%Q in
  let col := Math_floor (x this / tileSize this)%Q in
  b0 ← MazeMap.isEndPosition (mazeMap this) col row;
  if b0 : bool then Normal (true, this) else
  b1 ← MazeMap.isEndPosition (mazeMap this) (col + 1) row;
  if b1 : bool then Normal (true, this) else
  b2 ← MazeMap.isEndPosition (mazeMap this) (col - 1) row;
  if b2 : bool then Normal (true, this) else
  b3 ← MazeMap.isEndPosition (mazeMap this) col (row + 1);
  if b3 : bool then Normal (true, this) else
  b4 ← MazeMap.isEndPosition (mazeMap this) col (row - 1);
  if b4 : bool then Normal (true, this) else
  Normal (false, this).

Definition getX (this : t) : Q := x this.
Definition getY (this : t) : Q := y this.

(** [draw]: a disc of the size of a tile whose box has its corner at
    the position. *)
Definition draw (this : t) : list Canvas.call :=
  [Canvas.beginPath;
   Canvas.arc (x this + tileSize this / 2)%Q (y this + tileSize this / 2)%Q
              (tileSize this / 2)%Q 0 2;
   Canvas.fillStyle "#00ff00"; Canvas.fill].

End Player.

(** ** Game.ts

    The script builds the maze and the player, registers the key handler
    and runs [gameLoop] once; the browser then calls the handler on every
    key press and [gameLoop] on every animation frame.  The page is taken
    to have its canvas, with a 2-D context, and its status line. *)

Module Game.

Import Js.

(** The variables of the script, with what it writes to the page: the
    text and the colour of the status line (the colour is the style
    sheet's until the script sets it) and the size of the canvas. *)
Record t : Type := mk {
  mazeMap : MazeMap.t;
  player : Player.t;
  gameWon : bool;
  gameStarted : bool;
  statusText : string;
  statusColor : option string;
  canvas : Canvas.size
}.

Definition set_player (g : t) (p : Player.t) : t :=
  mk (mazeMap g) p (gameWon g) (gameStarted g) (statusText g) (statusColor g) (canvas g).

Definition set_gameStarted (g : t) (b : bool) : t :=
  mk (mazeMap g) (player g) (gameWon g) b (statusText g) (statusColor g) (canvas g).

Definition set_won (g : t) : t :=
  mk (mazeMap g) (player g) true (gameStarted g)
     "🎉 You Escaped! Congratulations! 🎉" (Some "#00ff00"%string) (canvas g).

Definition tileSize : Q := 32.

(** The script up to the registration of the key handler. *)
Definition init : completion t :=
  mazeMap ← MazeMap.new tileSize;
  size ← MazeMap.setCanvasSize mazeMap;
  let startPosition := MazeMap.getStartPosition mazeMap in
  let player := Player.new startPosition.1 startPosition.2 tileSize mazeMap in
  Normal (mk mazeMap player false false "Navigate to the red circle to escape!" None size).

(** [if (event.key === name) player.changeDirection(d)]. *)
Definition onKey (key name : string) (d : Direction) (g : t) : completion t :=
  if String.eqb key name then
    '(_, p) ← Player.changeDirection d (player g);
    Normal (set_player g p)
  else Normal g.

(** The [keydown] listener. *)
Definition keydown (key : string) (g : t) : completion t :=
  if gameWon g then Normal g
  else
    let g := if negb (gameStarted g) then set_gameStarted g true else g in
    g ← onKey key "ArrowUp" UP g;
    g ← onKey key "ArrowDown" DOWN g;
    g ← onKey key "ArrowLeft" LEFT g;
    onKey key "ArrowRight" RIGHT g.

(** One call of [gameLoop]: the calls on the context and the variables
    afterwards; the closing [requestAnimationFrame] asks for the next
    call. *)
Definition gameLoop (g : t) : completion (list Canvas.call * t) :=
  let cleared := [Canvas.clearRect 0 0 (Canvas.width (canvas g)) (Canvas.height (canvas g))] in
  let maze := MazeMap.draw (mazeMap g) in
  g ← (if negb (gameWon g) then
         '(_, p) ← Player.move (player g);
         '(won, p) ← Player.checkWinCondition p;
         if won : bool then Normal (set_won (set_player g p))
         else Normal (set_player g p)
       else Normal g);
  Normal (cleared ++ maze ++ Player.draw (player g), g).

End Game.

(** ** Vocabulary of the specification *)

Module Spec.

Import Js.

(** [rows] and [cols] of the bounds checks: [this.map.length] and
    [this.map[0].length]. *)
Definition rows (this : MazeMap.t) : Z := len (MazeMap.map this).

Definition cols (this : MazeMap.t) : Z :=
  len (default [] (at_index (MazeMap.map this) 0)).

(** The length of row [row] itself. *)
Definition rowLength (this : MazeMap.t) (row : Z) : Z :=
  len (default [] (at_index (MazeMap.map this) row)).

Definition inBounds (this : MazeMap.t) (col row : Z) : Prop :=
  0 <= row < rows this /\ 0 <= col < cols this.

(** The tile stored at a cell of a grid, if the grid has that cell. *)
Definition stored (m : list (list Z)) (col row : Z) : option Z :=
  r ← at_index m row; at_index r col.

(** The cell next to [(col, row)] in a direction. *)
Definition neighbour (col row : Z) (d : Direction) : Z * Z :=
  match d with
  | UP => (col, row - 1)
  | DOWN => (col, row + 1)
  | LEFT => (col - 1, row)
  | RIGHT => (col + 1, row)
  end.

(** [getTile(col, row) == Wall], a throw counting as no. *)
Definition tileIs (c : completion value) (tile : Z) : bool :=
  match c with
  | Normal v => strict_eq v tile
  | Throw _ => false
  end.

(** What [map[row][col]] is once the row is known to exist. *)
Definition cell (this : MazeMap.t) (col row : Z) : value :=
  elem (default [] (at_index (MazeMap.map this) row)) col.

(** The bounds check that [getTile] and [isEndPosition] share. *)
Definition checks (this : MazeMap.t) (col row : Z) : bool :=
  (row <? 0) || (col <? 0) || (row >=? rows this) || (col >=? cols this).

(** The bounds claim on [getTile] and [isEndPosition], read with the
    [cols] of the code: outside the bounds the sentinel and [false],
    inside them the stored tile and whether it is the exit. *)
Definition boundsClaim (this : MazeMap.t) (col row : Z) : Prop :=
  (~ inBounds this col row ->
     MazeMap.getTile this col row = Normal (VNum (-1)) /\
     MazeMap.isEndPosition this col row = Normal false) /\
  (inBounds this col row ->
     exists tile, stored (MazeMap.map this) col row = Some tile /\
       MazeMap.getTile this col row = Normal (VNum tile) /\
       MazeMap.isEndPosition this col row = Normal (tile =? MazeMap.Exit)).

(** The collision claim: [wallCollision] is the boolean
    [getTile(neighbour) == Wall], hence the boolean [false] when the
    neighbour is out of bounds. *)
Definition collisionClaim (this : MazeMap.t) (col row : Z) (d : Direction) : Prop :=
  MazeMap.wallCollision this col row d =
  VBool (tileIs (MazeMap.getTile this (neighbour col row d).1 (neighbour col row d).2)
           MazeMap.Wall).

(** The glyph classification table of the layout format. *)
Definition glyphTable (ch : Z) : Z :=
  if decide (ch = 0x25CB) then MazeMap.Marker
  else if decide (ch = 0xB7) then MazeMap.Empty
  else if decide (ch ∈ [0x250C; 0x2510; 0x2518; 0x2514; 0x2502; 0x2500; 0x3D])
       then MazeMap.Wall
  else if decide (ch = 0x58) then MazeMap.Empty
  else if decide (ch = 0x45) then MazeMap.Exit
  else MazeMap.Empty.

(** The object the constructor hands to [loadMap]. *)
Definition fresh (layout : list Z) (tileSize : Q) : MazeMap.t :=
  MazeMap.mk [] tileSize layout 0 0 0 0.

(** The character of a layout at a row and column. *)
Definition charAt (layout : list Z) (col row : Z) : option Z :=
  stored (split 10 layout) col row.

(** The grid as the parsing loops leave it, before the search for a
    fallback exit. *)
Definition parsed (layout : list Z) (tileSize : Q) : list (list Z) :=
  (MazeMap.parseRows 0 (split 10 layout) [] (fresh layout tileSize)).1.

(** [this] as the parsing loops leave it. *)
Definition parsedState (layout : list Z) (tileSize : Q) : MazeMap.t :=
  (MazeMap.parseRows 0 (split 10 layout) [] (fresh layout tileSize)).2.

(** [lastCol + 1] of the fallback search: the length of row 0. *)
Definition scanCols0 (layout : list Z) (tileSize : Q) : Z :=
  len (default [] (at_index (parsed layout tileSize) 0)).


(** The coordinate convention: x at the middle of the tile, y at its top. *)
Definition anchor (tileSize : Q) (col row : Z) : Q * Q :=
  ((inject_Z col * tileSize + tileSize / 2)%Q, (inject_Z row * tileSize)%Q).

(** The reversal of a direction. *)
Definition opposite (d : Direction) : Direction :=
  match d with
  | UP => DOWN
  | DOWN => UP
  | LEFT => RIGHT
  | RIGHT => LEFT
  end.

(** The agent sits on cell [(col, row)] exactly: both coordinates are
    that multiple of the tile size. *)
Definition alignedAt (this : Player.t) (col row : Z) : Prop :=
  Player.x this == inject_Z col * Player.tileSize this /\
  Player.y this == inject_Z row * Player.tileSize this.

(** The agent is tile-aligned and [wallCollision] reports a wall from
    its cell in direction [d]. *)
Definition blocked (this : Player.t) (d : Direction) : Prop :=
  exists col row, alignedAt this col row /\
    truthy (MazeMap.wallCollision (Player.mazeMap this) col row d) = true.


(** The states an agent goes through: built by the constructor, then
    driven by [move] and [changeDirection]. *)
Inductive agentState : Player.t -> Prop :=
| agent_new x y tileSize maze : agentState (Player.new x y tileSize maze)
| agent_move this this' :
    agentState this -> Player.move this = Normal (tt, this') -> agentState this'
| agent_changeDirection d this this' :
    agentState this -> Player.changeDirection d this = Normal (tt, this') ->
    agentState this'.

(** The grid reports [Exit] at a cell. *)
Definition isExit (maze : MazeMap.t) (col row : Z) : Prop :=
  MazeMap.getTile maze col row = Normal (VNum MazeMap.Exit).


(** A cell the fallback search may promote: [Empty] or [Marker]. *)
Definition promotable (m : list (list Z)) (col row : Z) : Prop :=
  stored m col row = Some MazeMap.Empty \/ stored m col row = Some MazeMap.Marker.

(** The grid after [map[row][col] = 3] on an existing cell. *)
Definition promote (m : list (list Z)) (col row : Z) : list (list Z) :=
  <[Z.to_nat row := <[Z.to_nat col := MazeMap.Exit]> (default [] (at_index m row))]> m.

(** Every cell of [m'] is the cell of [m], or the promotion to [Exit]
    of a promotable cell of [m] in a column below [cols]. *)
Definition promotedFrom (cols : Z) (m m' : list (list Z)) : Prop :=
  forall col row,
    stored m' col row = stored m col row \/
    (promotable m col row /\ 0 <= col < cols /\ stored m' col row = Some MazeMap.Exit).

(** A small ragged grid: row 1 is shorter than row 0, row 2 longer. *)
Definition ragged : MazeMap.t :=
  MazeMap.mk [[0; 3]; [0]; [1; 0; 1]] 32 [] 0 0 0 0.

(** *** The agent among the walls *)

(** The grid stores no wall at a cell (a cell outside the grid is no
    wall). *)
Definition notWall (maze : MazeMap.t) (col row : Z) : Prop :=
  stored (MazeMap.map maze) col row <> Some MazeMap.Wall.

(** Where an agent can be when a tile is [n] steps wide: on a cell that
    is no wall, or [k] steps out of it towards the next cell to the right
    (heading LEFT or RIGHT) or below (heading UP or DOWN), that cell being
    no wall either. *)
Definition clearOfWalls (this : Player.t) : Prop :=
  exists n col row k : Z,
    (0 < Player.speed this)%Q /\
    0 < n /\ Player.tileSize this == inject_Z n * Player.speed this /\
    0 <= k < n /\
    notWall (Player.mazeMap this) col row /\
    ((k = 0 /\ alignedAt this col row) \/
     (0 < k /\
      Player.x this == inject_Z col * Player.tileSize this + inject_Z k * Player.speed this /\
      Player.y this == inject_Z row * Player.tileSize this /\
      (Player.direction this = LEFT \/ Player.direction this = RIGHT) /\
      notWall (Player.mazeMap this) (col + 1) row) \/
     (0 < k /\
      Player.x this == inject_Z col * Player.tileSize this /\
      Player.y this == inject_Z row * Player.tileSize this + inject_Z k * Player.speed this /\
      (Player.direction this = UP \/ Player.direction this = DOWN) /\
      notWall (Player.mazeMap this) col (row + 1))).

(** The box of the agent (a tile wide and high, its corner at the
    position) and the box of a cell have a point in common, borders
    apart. *)
Definition overlaps (this : Player.t) (col row : Z) : Prop :=
  (inject_Z col * Player.tileSize this < Player.x this + Player.tileSize this /\
   Player.x this < (inject_Z col + 1) * Player.tileSize this /\
   inject_Z row * Player.tileSize this < Player.y this + Player.tileSize this /\
   Player.y this < (inject_Z row + 1) * Player.tileSize this)%Q.

(** The agent is on the exit or next to it, as [checkWinCondition]
    looks. *)
Definition nearExit (this : Player.t) : Prop :=
  let col := Qfloor (Player.x this / Player.tileSize this) in
  let row := Qfloor (Player.y this / Player.tileSize this) in
  isExit (Player.mazeMap this) col row \/
  isExit (Player.mazeMap this) (col + 1) row \/ isExit (Player.mazeMap this) (col - 1) row \/
  isExit (Player.mazeMap this) col (row + 1) \/ isExit (Player.mazeMap this) col (row - 1).

(** *** The browser *)

Inductive event : Type :=
| KeyDown (key : string)
| Frame.

Definition step (e : event) (g : Game.t) : completion Game.t :=
  match e with
  | KeyDown key => Game.keydown key g
  | Frame => '(_, g') ← Game.gameLoop g; Normal g'
  end.

Fixpoint run (events : list event) (g : Game.t) : completion Game.t :=
  match events with
  | [] => Normal g
  | e :: events' => g' ← step e g; run events' g'
  end.

(** The whole script: the set-up and the first call of [gameLoop]. *)
Definition main : completion Game.t :=
  g ← Game.init; step Frame g.

(** The direction an arrow key asks for. *)
Definition arrow (key : string) : option Direction :=
  if String.eqb key "ArrowUp" then Some UP
  else if String.eqb key "ArrowDown" then Some DOWN
  else if String.eqb key "ArrowLeft" then Some LEFT
  else if String.eqb key "ArrowRight" then Some RIGHT
  else None.

(** The variables once the handler has noted that the game has started. *)
Definition started (g : Game.t) : Game.t :=
  if negb (Game.gameStarted g) then Game.set_gameStarted g true else g.

(** What a key press leaves, read off the key. *)
Definition afterKey (key : string) (g : Game.t) : Game.t :=
  if Game.gameWon g then g
  else match arrow key with
       | Some d =>
           Game.set_player (started g) (Player.set_requestedDirection (Game.player g) d)
       | None => started g
       end.

(** What holds of the game at any time. *)
Definition gameInvariant (g : Game.t) : Prop :=
  clearOfWalls (Game.player g) /\
  (Game.gameWon g = true -> nearExit (Game.player g)) /\
  (Game.gameWon g = true <-> Game.statusText g = "🎉 You Escaped! Congratulations! 🎉"%string) /\
  (Game.gameWon g = true <-> Game.statusColor g = Some "#00ff00"%string).

(** The rectangle lies on a canvas of that size. *)
Definition onCanvas (size : Canvas.size) (c : Canvas.call) : Prop :=
  match c with
  | Canvas.fillRect x y w h =>
      (0 <= x /\ x + w <= Canvas.width size /\ 0 <= y /\ y + h <= Canvas.height size)%Q
  | _ => True
  end.

End Spec.

(** * Properties *)

(** ** Arrays *)

Section Arrays.

Import Js.
Context {A : Type}.
Implicit Types (arr : list A) (i : Z).

Lemma at_index_Some arr i a :
  at_index arr i = Some a <-> 0 <= i /\ arr !! Z.to_nat i = Some a.
Proof.
  unfold at_index. destruct (Z.ltb_spec i 0); split.
  - discriminate.
  - intros [? _]; lia.
  - auto.
  - tauto.
Qed.

Lemma at_index_None arr i :
  at_index arr i = None <-> i < 0 \/ len arr <= i.
Proof.
  unfold at_index, len. destruct (Z.ltb_spec i 0).
  - split; auto.
  - rewrite lookup_ge_None. lia.
Qed.

Lemma at_index_is_Some arr i :
  is_Some (at_index arr i) <-> 0 <= i < len arr.
Proof.
  rewrite <- not_eq_None_Some, at_index_None. lia.
Qed.

Lemma at_index_of_nat arr (n : nat) : at_index arr (Z.of_nat n) = arr !! n.
Proof.
  unfold at_index. destruct (Z.ltb_spec (Z.of_nat n) 0); [lia|].
  by rewrite Nat2Z.id.
Qed.

End Arrays.

Lemma elem_num arr i n : Js.elem arr i = Js.VNum n <-> Js.at_index arr i = Some n.
Proof.
  unfold Js.elem. destruct (Js.at_index arr i); split; intros H; congruence.
Qed.

Lemma elem_undefined arr i :
  Js.elem arr i = Js.VUndefined <-> i < 0 \/ Js.len arr <= i.
Proof.
  rewrite <- at_index_None. unfold Js.elem.
  destruct (Js.at_index arr i); split; intros H; congruence.
Qed.

(** ** Tile queries of the grid *)

Section Queries.

Import Js MazeMap Spec.
Implicit Types (this : MazeMap.t) (col row : Z).

Lemma checks_spec this col row :
  checks this col row = false <-> inBounds this col row.
Proof.
  unfold checks, inBounds. rewrite !orb_false_iff.
  rewrite !Z.ltb_ge, !Z.geb_leb, !Z.leb_gt. lia.
Qed.

Lemma getTile_eq this col row :
  getTile this col row =
  Normal (if checks this col row then VNum (-1) else cell this col row).
Proof.
  unfold getTile, checks, cell, rows, cols.
  destruct (row <? 0) eqn:Hr; [done|].
  destruct (col <? 0) eqn:Hc; [done|].
  destruct (row >=? len (map this)) eqn:Hr'; [done|]. simpl.
  apply Z.ltb_ge in Hr. rewrite Z.geb_leb in Hr'. apply Z.leb_gt in Hr'.
  destruct (at_index_is_Some (map this) 0) as [_ [r0 ->]]; [lia|]. simpl.
  destruct (col >=? len r0); [done|].
  destruct (at_index_is_Some (map this) row) as [_ [r ->]]; [lia|]. done.
Qed.

Lemma isEndPosition_eq this col row :
  isEndPosition this col row =
  Normal (if checks this col row then false else strict_eq (cell this col row) 3).
Proof.
  unfold isEndPosition, checks, cell, rows, cols.
  destruct (row <? 0) eqn:Hr; [done|].
  destruct (col <? 0) eqn:Hc; [done|].
  destruct (row >=? len (map this)) eqn:Hr'; [done|]. simpl.
  apply Z.ltb_ge in Hr. rewrite Z.geb_leb in Hr'. apply Z.leb_gt in Hr'.
  destruct (at_index_is_Some (map this) 0) as [_ [r0 ->]]; [lia|]. simpl.
  destruct (col >=? len r0); [done|].
  destruct (at_index_is_Some (map this) row) as [_ [r ->]]; [lia|]. done.
Qed.

Lemma isEndPosition_getTile this col row :
  isEndPosition this col row = Normal (tileIs (getTile this col row) Exit).
Proof.
  rewrite isEndPosition_eq, getTile_eq. simpl. by destruct (checks this col row).
Qed.

Lemma cell_stored this col row tile :
  stored (map this) col row = Some tile -> cell this col row = VNum tile.
Proof.
  unfold stored, cell. destruct (at_index (map this) row) as [r|]; [|done].
  simpl. by intros ->%elem_num.
Qed.

Lemma stored_is_Some this col row :
  is_Some (stored (map this) col row) <->
  0 <= row < rows this /\ 0 <= col < rowLength this row.
Proof.
  unfold stored, rows, rowLength.
  destruct (at_index (map this) row) as [r|] eqn:Hr; simpl.
  - rewrite at_index_is_Some.
    assert (is_Some (at_index (map this) row)) as ?%at_index_is_Some by eauto.
    tauto.
  - apply at_index_None in Hr. split; [by intros [? ?]|]. unfold len; simpl. lia.
Qed.

Lemma cell_past_row this col row :
  0 <= row < rows this -> rowLength this row <= col -> cell this col row = VUndefined.
Proof.
  intros Hr Hc. unfold cell. apply elem_undefined. by right.
Qed.

End Queries.

(** ** C9, C10 and C5: bounds checks and collision *)

Section QueryClaims.

Import Js MazeMap Spec.
Implicit Types (this : MazeMap.t) (col row : Z).

(** C9, as first stated, fails on the maze of the game itself: cell
    (25, 10) passes the bounds check, row 10 is only 23 cells long, and
    [getTile] returns [undefined] there, not a stored tile. *)
Lemma boundsClaim_fails_on_literal :
  exists this, MazeMap.new 32 = Normal this /\
    inBounds this 25 10 /\
    getTile this 25 10 = Normal VUndefined /\
    ~ boundsClaim this 25 10.
Proof.
  eexists. split; [vm_compute; reflexivity|].
  split; [by vm_compute|].
  split; [vm_compute; reflexivity|].
  intros [_ H]. destruct H as (tile & Hs & _); [by vm_compute|].
  vm_compute in Hs. discriminate.
Qed.

(** C9 (amended): neither query throws; outside the bounds (with [cols]
    the length of row 0) [getTile] returns -1 and [isEndPosition] false;
    inside the bounds and inside the row itself [getTile] returns the
    stored tile and [isEndPosition] says whether it is [Exit]; inside the
    bounds but past the end of a shorter row [getTile] returns
    [undefined] and [isEndPosition] false. *)
Theorem getTile_isEndPosition_bounds this col row :
  (exists v b, getTile this col row = Normal v /\ isEndPosition this col row = Normal b) /\
  (~ inBounds this col row ->
     getTile this col row = Normal (VNum (-1)) /\
     isEndPosition this col row = Normal false) /\
  (inBounds this col row -> col < rowLength this row ->
     exists tile, stored (map this) col row = Some tile /\
       getTile this col row = Normal (VNum tile) /\
       isEndPosition this col row = Normal (tile =? Exit)) /\
  (inBounds this col row -> rowLength this row <= col ->
     getTile this col row = Normal VUndefined /\
     isEndPosition this col row = Normal false).
Proof.
  rewrite getTile_eq, isEndPosition_eq.
  split; [eauto|].
  destruct (checks this col row) eqn:Hc.
  - assert (~ inBounds this col row) as Hout.
    { intros Hin%checks_spec. congruence. }
    split; [done|]. split; intros Hin; by destruct Hout.
  - apply checks_spec in Hc as Hin. split; [done|]. split.
    + intros _ Hlt.
      destruct (stored_is_Some this col row) as [_ [tile Hs]].
      { unfold inBounds in Hin. lia. }
      exists tile. by rewrite (cell_stored _ _ _ _ Hs).
    + intros _ Hge. rewrite cell_past_row; [done| apply Hin | done].
Qed.

Lemma getTile_isEndPosition_bounds_witness :
  getTile ragged 1 0 = Normal (VNum 3) /\ isEndPosition ragged 1 0 = Normal true /\
  getTile ragged 1 1 = Normal VUndefined /\ isEndPosition ragged 1 1 = Normal false /\
  getTile ragged 2 2 = Normal (VNum (-1)) /\ isEndPosition ragged 2 2 = Normal false.
Proof.
  destruct (getTile_isEndPosition_bounds ragged 1 0) as (_ & _ & H & _).
  destruct H as (tile & Hs & Hg & He); [by vm_compute | by vm_compute |].
  vm_compute in Hs. injection Hs as <-.
  destruct (getTile_isEndPosition_bounds ragged 1 1) as (_ & _ & _ & H1).
  destruct H1 as [Hg1 He1]; [by vm_compute | by vm_compute |].
  destruct (getTile_isEndPosition_bounds ragged 2 2) as (_ & H2 & _).
  destruct H2 as [Hg2 He2].
  { intros [_ [_ H]]. vm_compute in H. discriminate. }
  auto 10.
Defined.

(** C5, as first stated, fails on the maze of the game: at cell (0, 0)
    the cell above is out of bounds and [wallCollision] returns
    [undefined], not the boolean [false]. *)
Lemma collisionClaim_fails_on_literal :
  exists this, MazeMap.new 32 = Normal this /\
    inBounds this 0 0 /\
    wallCollision this 0 0 UP = VUndefined /\
    ~ collisionClaim this 0 0 UP.
Proof.
  eexists. split; [vm_compute; reflexivity|].
  split; [by vm_compute|].
  split; [vm_compute; reflexivity|].
  intros H. vm_compute in H. discriminate.
Qed.

(** C5 (amended): for a cell within the grid, [wallCollision] is truthy
    exactly when [getTile] of the adjacent cell is [Wall] (for RIGHT: in
    a row no longer than row 0); when the adjacent cell is out of bounds
    the result is [undefined] if the grid has no such row and the boolean
    [false] otherwise, never [true]. *)
Theorem wallCollision_getTile this col row d :
  inBounds this col row ->
  (d = RIGHT -> rowLength this row <= cols this) ->
  truthy (wallCollision this col row d) =
    tileIs (getTile this (neighbour col row d).1 (neighbour col row d).2) Wall /\
  (~ inBounds this (neighbour col row d).1 (neighbour col row d).2 ->
     wallCollision this col row d =
       if decide (0 <= (neighbour col row d).2 < rows this) then VBool false
       else VUndefined).
Proof.
  intros [Hr Hc] Hright. rewrite getTile_eq. unfold wallCollision, tileIs.
  assert (forall r', ~ 0 <= r' < rows this -> at_index (map this) r' = None) as Hnone.
  { intros r' H. apply at_index_None. unfold rows in H. lia. }
  assert (forall r', 0 <= r' < rows this ->
            exists l, at_index (map this) r' = Some l /\
                      forall c, cell this c r' = elem l c) as Hsome.
  { intros r' H. destruct (at_index_is_Some (map this) r') as [_ [l Hl]]; [done|].
    exists l. split; [done|]. intros c. unfold cell. by rewrite Hl. }
  destruct d; simpl.
  - (* UP *)
    case_decide as Hup.
    + destruct (Hsome _ Hup) as (l & -> & Hcell). simpl.
      destruct (checks this col (row - 1)) eqn:Hchk.
      * exfalso. apply not_false_iff_true in Hchk. apply Hchk, checks_spec.
        unfold inBounds. lia.
      * rewrite Hcell. split; [done|]. intros Hout. destruct Hout. by apply checks_spec.
    + rewrite (Hnone _ Hup). simpl.
      destruct (checks this col (row - 1)) eqn:Hchk; [done|].
      apply checks_spec in Hchk. destruct Hup. apply Hchk.
  - (* DOWN *)
    case_decide as Hdown.
    + destruct (Hsome _ Hdown) as (l & -> & Hcell). simpl.
      destruct (checks this col (row + 1)) eqn:Hchk.
      * exfalso. apply not_false_iff_true in Hchk. apply Hchk, checks_spec.
        unfold inBounds. lia.
      * rewrite Hcell. split; [done|]. intros Hout. destruct Hout. by apply checks_spec.
    + rewrite (Hnone _ Hdown). simpl.
      destruct (checks this col (row + 1)) eqn:Hchk; [done|].
      apply checks_spec in Hchk. destruct Hdown. apply Hchk.
  - (* LEFT *)
    rewrite decide_True by done.
    destruct (Hsome _ Hr) as (l & -> & Hcell). simpl.
    destruct (checks this (col - 1) row) eqn:Hchk.
    + assert (elem l (col - 1) = VUndefined) as ->; [|done].
      apply elem_undefined. left.
      destruct (decide (col - 1 < 0)); [done|].
      exfalso. apply not_false_iff_true in Hchk. apply Hchk, checks_spec.
      unfold inBounds. lia.
    + rewrite Hcell. split; [done|]. intros Hout. destruct Hout. by apply checks_spec.
  - (* RIGHT *)
    rewrite decide_True by done.
    destruct (Hsome _ Hr) as (l & Hl & Hcell). rewrite Hl. simpl.
    destruct (checks this (col + 1) row) eqn:Hchk.
    + assert (elem l (col + 1) = VUndefined) as ->; [|done].
      apply elem_undefined. right.
      destruct (decide (col + 1 < cols this)).
      * exfalso. apply not_false_iff_true in Hchk. apply Hchk, checks_spec.
        unfold inBounds. lia.
      * specialize (Hright eq_refl). unfold rowLength in Hright.
        rewrite Hl in Hright. simpl in Hright. lia.
    + rewrite Hcell. split; [done|]. intros Hout. destruct Hout. by apply checks_spec.
Qed.

Lemma wallCollision_getTile_witness :
  truthy (wallCollision ragged 0 1 DOWN) = true /\
  wallCollision ragged 0 0 UP = VUndefined /\
  wallCollision ragged 1 0 RIGHT = VBool false.
Proof.
  assert (inBounds ragged 0 1) as H01 by by vm_compute.
  assert (inBounds ragged 0 0) as H00 by by vm_compute.
  assert (inBounds ragged 1 0) as H10 by by vm_compute.
  destruct (wallCollision_getTile ragged 0 1 DOWN H01) as [Hd _]; [done|].
  destruct (wallCollision_getTile ragged 0 0 UP H00) as [_ Hu]; [done|].
  destruct (wallCollision_getTile ragged 1 0 RIGHT H10) as [_ Hr].
  { intros _. by vm_compute. }
  split; [exact Hd|]. split.
  - apply Hu. intros [[H _] _]. simpl in H. lia.
  - apply Hr. intros [_ [_ H]]. vm_compute in H. discriminate.
Defined.

(** What the amended C5 leaves out: in a row longer than row 0 a wall
    just past the length of row 0 is reported by [wallCollision] although
    [getTile] calls that cell out of bounds. *)
Lemma collision_past_first_row_length :
  inBounds ragged 1 2 /\
  wallCollision ragged 1 2 RIGHT = VBool true /\
  getTile ragged 2 2 = Normal (VNum (-1)).
Proof. split; [by vm_compute|]. split; reflexivity. Qed.

End QueryClaims.

(** ** The parsing loops of [loadMap] *)

Section Parsing.

Import Js MazeMap Spec.
Implicit Types (this : MazeMap.t) (x y : Z) (chars line : list Z).

Lemma parseChar_tile x y ch this : (parseChar x y ch this).1 = glyphTable ch.
Proof.
  unfold parseChar, glyphTable.
  repeat match goal with
         | |- context [?a =? ?b] => destruct (Z.eqb_spec a b); subst; simpl; try done
         end.
  repeat case_decide; try done.
  exfalso. repeat match goal with
                  | H : _ ∈ _ :: _ |- _ => apply elem_of_cons in H as [?|H]; [done|]
                  | H : _ ∈ [] |- _ => by apply elem_of_nil in H
                  end.
Qed.

Lemma parseChar_fields x y ch this :
  tileSize (parseChar x y ch this).2 = tileSize this /\
  map (parseChar x y ch this).2 = map this /\
  mapString (parseChar x y ch this).2 = mapString this.
Proof.
  unfold parseChar.
  repeat match goal with
         | |- context [if ?b then _ else _] => destruct b; simpl; try done
         end.
Qed.

Lemma parseChar_start x y ch this :
  getStartPosition (parseChar x y ch this).2 =
  if decide (ch = 0x58) then anchor (tileSize this) x y else getStartPosition this.
Proof.
  unfold parseChar. case_decide as HX.
  - by subst.
  - repeat match goal with
           | |- context [?a =? ?b] => destruct (Z.eqb_spec a b); simpl; try done
           end.
Qed.


Lemma parseLine_cons y x ch chars line this :
  parseLine y x (ch :: chars) line this =
  parseLine y (x + 1) chars (line ++ [(parseChar x y ch this).1]) (parseChar x y ch this).2.
Proof. simpl. by destruct (parseChar x y ch this). Qed.

Lemma parseLine_tiles y chars : forall x line this,
  (parseLine y x chars line this).1 = line ++ (glyphTable <$> chars).
Proof.
  induction chars as [|ch chars IH]; intros x line this.
  - simpl. by rewrite app_nil_r.
  - rewrite parseLine_cons, IH, parseChar_tile, <- app_assoc. done.
Qed.

Lemma parseLine_fields y chars : forall x line this,
  tileSize (parseLine y x chars line this).2 = tileSize this /\
  map (parseLine y x chars line this).2 = map this /\
  mapString (parseLine y x chars line this).2 = mapString this.
Proof.
  induction chars as [|ch chars IH]; intros x line this; [done|].
  rewrite parseLine_cons.
  destruct (IH (x + 1) (line ++ [(parseChar x y ch this).1]) (parseChar x y ch this).2)
    as (-> & -> & ->).
  apply parseChar_fields.
Qed.

(** The state after a row: the anchor of the last [g] of the row, or
    what it was when the row has none. *)
Lemma parseLine_start_absent y chars : forall x line this,
  0x58 ∉ chars ->
  getStartPosition (parseLine y x chars line this).2 = getStartPosition this.
Proof.
  induction chars as [|ch chars IH]; intros x line this Hno; [done|].
  rewrite parseLine_cons, IH, parseChar_start by set_solver.
  rewrite decide_False; [done | set_solver].
Qed.




Lemma parseRows_cons y r rows m this :
  parseRows y (r :: rows) m this =
  parseRows (y + 1) rows (m ++ [(parseLine y 0 r [] this).1]) (parseLine y 0 r [] this).2.
Proof. simpl. by destruct (parseLine y 0 r [] this). Qed.

Lemma parseRows_tiles rows : forall y m this,
  (parseRows y rows m this).1 = m ++ (fmap (M:=list) glyphTable <$> rows).
Proof.
  induction rows as [|r rows IH]; intros y m this.
  - simpl. by rewrite app_nil_r.
  - rewrite parseRows_cons, IH, parseLine_tiles, <- app_assoc. done.
Qed.

Lemma parseRows_fields rows : forall y m this,
  tileSize (parseRows y rows m this).2 = tileSize this /\
  map (parseRows y rows m this).2 = map this /\
  mapString (parseRows y rows m this).2 = mapString this.
Proof.
  induction rows as [|r rows IH]; intros y m this; [done|].
  rewrite parseRows_cons.
  destruct (IH (y + 1) (m ++ [(parseLine y 0 r [] this).1]) (parseLine y 0 r [] this).2)
    as (-> & -> & ->).
  apply parseLine_fields.
Qed.

Lemma parseRows_start_absent rows : forall y m this,
  Forall (fun r => 0x58 ∉ r) rows ->
  getStartPosition (parseRows y rows m this).2 = getStartPosition this.
Proof.
  induction rows as [|r rows IH]; intros y m this Hno; [done|].
  apply Forall_cons in Hno as [Hr Hrows].
  rewrite parseRows_cons, IH, parseLine_start_absent; done.
Qed.




Lemma parsed_eq layout tileSize :
  parsed layout tileSize = fmap (M:=list) glyphTable <$> split 10 layout.
Proof. unfold parsed. by rewrite parseRows_tiles. Qed.

End Parsing.

(** ** The search for a fallback exit *)

Section Fallback.

Import Js MazeMap Spec.
Implicit Types (this : MazeMap.t) (x y col row : Z) (m : list (list Z)).

Lemma candidate_spec (r : list Z) x :
  strict_eq (elem r x) 0 || strict_eq (elem r x) 2 = true <->
  at_index r x = Some Empty \/ at_index r x = Some Marker.
Proof.
  unfold elem, Empty, Marker. destruct (at_index r x) as [n|]; simpl.
  - rewrite orb_true_iff, !Z.eqb_eq.
    split; (intros [?|?]; [left|right]; congruence).
  - split; [discriminate | intros [?|?]; discriminate].
Qed.

Lemma stored_row m col row r :
  at_index m row = Some r -> stored m col row = at_index r col.
Proof. unfold stored. by intros ->. Qed.

Lemma stored_promote m x y r t col row :
  at_index m y = Some r -> at_index r x = Some t ->
  stored (promote m x y) col row =
  if decide (col = x /\ row = y) then Some Exit else stored m col row.
Proof.
  intros Hy Hx. unfold promote. rewrite Hy. simpl.
  apply at_index_Some in Hy as [Hy0 Hy]. apply at_index_Some in Hx as [Hx0 Hx].
  apply lookup_lt_Some in Hy as Hylt. apply lookup_lt_Some in Hx as Hxlt.
  unfold stored, at_index.
  destruct (Z.ltb_spec row 0).
  { simpl. rewrite decide_False; [done | lia]. }
  destruct (decide (row = y)) as [->|Hne].
  - rewrite list_lookup_insert_eq by done. rewrite Hy. simpl.
    destruct (Z.ltb_spec col 0).
    { rewrite decide_False; [done | lia]. }
    destruct (decide (col = x)) as [->|Hne].
    + rewrite list_lookup_insert_eq by done. by rewrite decide_True.
    + rewrite list_lookup_insert_ne by lia. rewrite decide_False; [done | tauto].
  - rewrite list_lookup_insert_ne by lia. rewrite decide_False; [done | tauto].
Qed.

Lemma promotedFrom_refl cols m : promotedFrom cols m m.
Proof. intros col row. by left. Qed.

Lemma promotedFrom_promote cols m x y r :
  at_index m y = Some r -> 0 <= x < cols ->
  at_index r x = Some Empty \/ at_index r x = Some Marker ->
  promotedFrom cols m (promote m x y).
Proof.
  intros Hy Hx Hc col row.
  assert (exists t, at_index r x = Some t) as [t Ht] by (destruct Hc; eauto).
  rewrite (stored_promote _ _ _ _ _ _ _ Hy Ht).
  case_decide as Heq; [|by left]. destruct Heq as [-> ->].
  right. unfold promotable. rewrite (stored_row _ _ _ _ Hy). done.
Qed.

Lemma promotedFrom_trans cols m1 m2 m3 :
  promotedFrom cols m1 m2 -> promotedFrom cols m2 m3 -> promotedFrom cols m1 m3.
Proof.
  intros H12 H23 col row.
  destruct (H23 col row) as [->|(Hp & Hc & ->)]; [apply H12|].
  destruct (H12 col row) as [Heq|(_ & _ & Hex)].
  - right. unfold promotable in *. rewrite <- Heq. done.
  - unfold promotable, Empty, Marker, Exit in *. rewrite Hex in Hp.
    destruct Hp; discriminate.
Qed.

Lemma length_promote m x y : length (promote m x y) = length m.
Proof. unfold promote. apply length_insert. Qed.

(** The inner loop over row [y]: it promotes the rightmost promotable
    cell below column [k], or leaves everything as it is. *)
Lemma scanCols_spec k y m this r :
  at_index m y = Some r ->
  (exists x, 0 <= x < Z.of_nat k /\
     (at_index r x = Some Empty \/ at_index r x = Some Marker) /\
     (forall x', x < x' < Z.of_nat k ->
        ~ (at_index r x' = Some Empty \/ at_index r x' = Some Marker)) /\
     scanCols k y m this =
       Normal (promote m x y,
               set_end this (anchor (tileSize this) x y).1 (anchor (tileSize this) x y).2))
  \/
  ((forall x', 0 <= x' < Z.of_nat k ->
      ~ (at_index r x' = Some Empty \/ at_index r x' = Some Marker)) /\
   scanCols k y m this = Normal (m, this)).
Proof.
  intros Hy. induction k as [|k IH].
  - right. split; [intros; lia | done].
  - simpl scanCols. rewrite Hy. simpl.
    destruct (strict_eq (elem r (Z.of_nat k)) 0 || strict_eq (elem r (Z.of_nat k)) 2)
      eqn:Hc.
    + left. exists (Z.of_nat k). apply candidate_spec in Hc.
      split; [lia|]. split; [done|]. split; [intros; lia|].
      unfold promote. by rewrite Hy.
    + assert (~ (at_index r (Z.of_nat k) = Some Empty \/
                 at_index r (Z.of_nat k) = Some Marker)) as Hno.
      { rewrite <- candidate_spec. congruence. }
      destruct IH as [(x & Hx & Hcand & Hmax & Heq)|[Hnone Heq]].
      * left. exists x. split; [lia|]. split; [done|]. split; [|done].
        intros x' Hx'. destruct (decide (x' = Z.of_nat k)) as [->|]; [done|].
        apply Hmax. lia.
      * right. split; [|done].
        intros x' Hx'. destruct (decide (x' = Z.of_nat k)) as [->|]; [done|].
        apply Hnone. lia.
Qed.

(** The outer loop never throws, whatever the tile size: it only
    promotes promotable cells in columns below [cols] and only writes the
    end coordinate. *)
Lemma scanRows_total cols : forall k m this,
  (k <= length m)%nat ->
  exists m' this',
    scanRows k cols m this = Normal (m', this') /\
    length m' = length m /\
    promotedFrom (Z.of_nat cols) m m' /\
    tileSize this' = tileSize this /\
    getStartPosition this' = getStartPosition this /\
    mapString this' = mapString this /\
    (getEndPosition this' = getEndPosition this \/
     exists x y, getEndPosition this' = anchor (tileSize this) x y).
Proof.
  induction k as [|k IH]; intros m this Hk.
  - exists m, this. split; [done|]. split; [done|].
    split; [apply promotedFrom_refl | auto 10].
  - destruct (at_index_is_Some m (Z.of_nat k)) as [_ [r Hr]]; [unfold len; lia|].
    assert (exists m1 this1,
      scanCols cols (Z.of_nat k) m this = Normal (m1, this1) /\
      length m1 = length m /\ promotedFrom (Z.of_nat cols) m m1 /\
      tileSize this1 = tileSize this /\
      getStartPosition this1 = getStartPosition this /\
      mapString this1 = mapString this /\
      (getEndPosition this1 = getEndPosition this \/
       exists x y, getEndPosition this1 = anchor (tileSize this) x y))
      as (m1 & this1 & Hscan & Hlen & Hprom & Hts1 & Hst1 & Hms1 & Hend1).
    { destruct (scanCols_spec cols (Z.of_nat k) m this r Hr)
        as [(x & Hx & Hcand & _ & Heq)|[_ Heq]].
      - eexists _, _. split; [exact Heq|]. split; [apply length_promote|].
        split; [by eapply promotedFrom_promote|].
        split; [done|]. split; [done|]. split; [done|]. right. by eexists _, _.
      - exists m, this. split; [done|]. split; [done|].
        split; [apply promotedFrom_refl | auto 10]. }
    simpl scanRows. rewrite Hscan. simpl.
    destruct (negb (Qeq_bool (endX this1) 0) || negb (Qeq_bool (endY this1) 0)).
    + exists m1, this1. done.
    + destruct (IH m1 this1)
        as (m' & this' & Heq & Hlen' & Hprom' & Hts & Hst & Hms & Hend); [lia|].
      exists m', this'. split; [done|]. split; [congruence|].
      split; [by eapply promotedFrom_trans|].
      split; [congruence|]. split; [congruence|]. split; [congruence|].
      rewrite Hts1 in Hend.
      destruct Hend as [->|?]; [done | by right].
Qed.

End Fallback.

(** ** [split], and where a glyph occurs last *)

Section Layout.

Import Js MazeMap Spec.
Implicit Types (s r : list Z) (rows : list (list Z)).

Lemma split_nonempty sep s : split sep s <> [].
Proof.
  destruct s as [|c s]; simpl; [done|].
  destruct (c =? sep); [done|]. by destruct (split sep s).
Qed.

Lemma split_elem sep s : forall r x, r ∈ split sep s -> x ∈ r -> x ∈ s.
Proof.
  induction s as [|c s IH]; intros r x Hr Hx; simpl in Hr.
  - apply list_elem_of_singleton in Hr as ->. done.
  - destruct (c =? sep).
    + apply elem_of_cons in Hr as [->|Hr].
      * by apply elem_of_nil in Hx.
      * right. by eapply IH.
    + destruct (split sep s) as [|r0 rs] eqn:Hs.
      * apply list_elem_of_singleton in Hr as ->.
        apply list_elem_of_singleton in Hx as ->. left.
      * apply elem_of_cons in Hr as [->|Hr].
        -- apply elem_of_cons in Hx as [->|Hx]; [left|].
           right. eapply IH; [left | done].
        -- right. eapply IH; [by right | done].
Qed.


Lemma absent_rows g s : g ∉ s -> Forall (fun r => g ∉ r) (split 10 s).
Proof.
  intros Hg. apply Forall_forall. intros r Hr Hgr. apply Hg. by eapply split_elem.
Qed.






End Layout.

(** ** [loadMap] and the constructor *)

Section LoadMap.

Import Js MazeMap Spec.
Implicit Types (this : MazeMap.t) (x y col row : Z) (m : list (list Z))
  (layout : list Z) (ts : Q).

Lemma stored_fmap (f : Z -> Z) (rows : list (list Z)) col row :
  stored (fmap (M:=list) f <$> rows) col row = f <$> stored rows col row.
Proof.
  unfold stored, at_index. destruct (row <? 0); [done|].
  rewrite list_lookup_fmap. destruct (rows !! Z.to_nat row) as [r|]; [|done].
  simpl. destruct (col <? 0); [done|]. by rewrite list_lookup_fmap.
Qed.

Lemma parsed_stored layout ts col row :
  stored (parsed layout ts) col row = glyphTable <$> charAt layout col row.
Proof. rewrite parsed_eq. apply stored_fmap. Qed.

Lemma parsed_row0 layout ts :
  exists first, at_index (parsed layout ts) 0 = Some first.
Proof.
  rewrite parsed_eq. pose proof (split_nonempty 10 layout) as Hne.
  destruct (split 10 layout) as [|r rs]; [done|]. simpl. eauto.
Qed.

Lemma parsedState_fields layout ts :
  tileSize (parsedState layout ts) = ts /\
  map (parsedState layout ts) = [] /\
  mapString (parsedState layout ts) = layout.
Proof. unfold parsedState. apply parseRows_fields. Qed.

(** [loadMap] on the object of the constructor: the parsing loops, then
    the fallback search over [rows] rows and [cols] columns when the
    end coordinate is still the origin. *)
Lemma loadMap_fresh layout ts :
  loadMap (fresh layout ts) =
  if Qeq_bool (endX (parsedState layout ts)) 0 && Qeq_bool (endY (parsedState layout ts)) 0
  then scanRows (length (parsed layout ts)) (Z.to_nat (scanCols0 layout ts))
         (parsed layout ts) (parsedState layout ts)
  else Normal (parsed layout ts, parsedState layout ts).
Proof.
  unfold loadMap, scanCols0, parsed, parsedState. simpl mapString.
  destruct (parseRows 0 (split 10 layout) [] (fresh layout ts)) as [m this1] eqn:Hp.
  simpl.
  destruct (Qeq_bool (endX this1) 0 && Qeq_bool (endY this1) 0); [|done].
  destruct (parsed_row0 layout ts) as [first Hrow0].
  unfold parsed in Hrow0. rewrite Hp in Hrow0. simpl in Hrow0. rewrite Hrow0. simpl.
  unfold len. f_equal; lia.
Qed.

(** The constructor never throws. *)
Lemma construct_total layout ts :
  exists this,
    construct layout ts = Normal this /\
    length (map this) = length (parsed layout ts) /\
    promotedFrom (scanCols0 layout ts) (parsed layout ts) (map this) /\
    tileSize this = ts /\
    getStartPosition this = getStartPosition (parsedState layout ts) /\
    mapString this = layout /\
    (getEndPosition this = getEndPosition (parsedState layout ts) \/
     exists x y, getEndPosition this = anchor ts x y).
Proof.
  unfold construct. change (mk [] ts layout 0 0 0 0) with (fresh layout ts).
  rewrite loadMap_fresh.
  destruct (parsedState_fields layout ts) as (Hts & _ & Hms).
  destruct (Qeq_bool (endX (parsedState layout ts)) 0
            && Qeq_bool (endY (parsedState layout ts)) 0).
  - destruct (scanRows_total (Z.to_nat (scanCols0 layout ts)) (length (parsed layout ts))
                (parsed layout ts) (parsedState layout ts))
      as (m' & this' & -> & Hlen & Hprom & Hts' & Hst & Hms' & Hend); [done|].
    simpl. eexists. split; [done|]. simpl.
    split; [done|]. split.
    + rewrite Z2Nat.id in Hprom; [done|]. unfold scanCols0, len. lia.
    + split; [congruence|]. split; [done|]. split; [congruence|].
      rewrite Hts in Hend. exact Hend.
  - simpl. eexists. split; [done|]. simpl.
    split; [done|]. split; [apply promotedFrom_refl | auto 10].
Qed.



End LoadMap.

(** ** C7, C8, C6 and C10: what the constructor builds *)

Section LoadMapClaims.

Import Js MazeMap Spec.
Implicit Types (this : MazeMap.t) (x y col row : Z) (m : list (list Z))
  (layout : list Z) (ts : Q).













(** With tile size 0 every promotion leaves the end coordinate at the
    origin, the outer loop does not stop, and one cell per row is
    promoted. *)
Lemma two_exits_with_zero_tile :
  exists this, construct (str "·
·") 0 = Normal this /\ map this = [[Exit]; [Exit]].
Proof. eexists. split; [vm_compute; reflexivity | reflexivity]. Qed.







End LoadMapClaims.

(** ** Numbers *)

Section Numbers.

Import Js.

Lemma Number_isInteger_spec q :
  Number_isInteger q = true <-> exists k : Z, q == inject_Z k.
Proof.
  unfold Number_isInteger. rewrite Qeq_bool_iff. split.
  - intros H. by exists (Qfloor q).
  - intros [k Hk]. rewrite Hk at 2. by rewrite Qfloor_Z.
Qed.

Lemma Qfloor_integer q k : q == inject_Z k -> Qfloor q = k.
Proof. intros ->. apply Qfloor_Z. Qed.

Lemma div_integer a ts k :
  ~ ts == 0 -> (a / ts == inject_Z k <-> a == inject_Z k * ts).
Proof.
  intros Hts. split; intros H.
  - rewrite <- H. by field.
  - rewrite H. by field.
Qed.

End Numbers.

(** ** C1, C2, C3 and C4: the agent *)

Section Agent.

Import Js Player Spec.
Implicit Types (this : Player.t) (d : Direction).

Lemma opposite_reverses d requested :
  reverses d requested = true <-> requested = opposite d.
Proof. destruct d, requested; simpl; split; (done || discriminate). Qed.

(** The alignment test of [move], in the vocabulary of the claims. *)
Lemma wallAhead_blocked this d :
  ~ tileSize this == 0 ->
  wallAhead this (x this / tileSize this) (y this / tileSize this) d = true <->
  blocked this d.
Proof.
  intros Hts. unfold wallAhead, blocked, alignedAt.
  rewrite !andb_true_iff, !Number_isInteger_spec. split.
  - intros [[[col Hcol] [row Hrow]] Hwall].
    exists col, row. rewrite (Qfloor_integer _ _ Hcol), (Qfloor_integer _ _ Hrow) in Hwall.
    by rewrite <- !div_integer.
  - intros (col & row & [Hx Hy] & Hwall).
    apply div_integer in Hx, Hy; [|done..].
    rewrite (Qfloor_integer _ _ Hx), (Qfloor_integer _ _ Hy). eauto.
Qed.


Lemma arbitrate_fields this col row :
  x (arbitrate this col row) = x this /\
  y (arbitrate this col row) = y this /\
  speed (arbitrate this col row) = speed this /\
  tileSize (arbitrate this col row) = tileSize this /\
  mazeMap (arbitrate this col row) = mazeMap this /\
  requestedDirection (arbitrate this col row) = requestedDirection this.
Proof.
  unfold arbitrate.
  repeat match goal with
         | |- context [if ?b then _ else _] => destruct b; simpl; try done
         end.
Qed.

Lemma advance_fields this col row :
  direction (advance this col row) = direction this /\
  requestedDirection (advance this col row) = requestedDirection this.
Proof.
  unfold advance. destruct (negb _); [|done].
  by destruct (direction this) eqn:Hd.
Qed.

(** C3: when the requested direction is the reversal of the current one
    (UP against DOWN, LEFT against RIGHT), [move] makes it the direction
    on that tick, for any position, tile size and maze: neither the
    alignment nor [wallCollision] has a say. *)
Theorem reversal_immediate this :
  requestedDirection this = opposite (direction this) ->
  exists this',
    move this = Normal (tt, this') /\
    direction this' = requestedDirection this /\
    requestedDirection this' = requestedDirection this.
Proof.
  intros Hrev. eexists. split; [reflexivity|].
  destruct (advance_fields (arbitrate this (x this / tileSize this) (y this / tileSize this))
              (x this / tileSize this) (y this / tileSize this)) as [-> ->].
  destruct (arbitrate_fields this (x this / tileSize this) (y this / tileSize this))
    as (_ & _ & _ & _ & _ & ->).
  split; [|done]. unfold arbitrate.
  rewrite (proj2 (opposite_reverses _ _) Hrev).
  rewrite bool_decide_true; [done|]. rewrite Hrev. by destruct (direction this).
Qed.

Lemma reversal_immediate_witness :
  exists this',
    move (mk 16 0 2 RIGHT LEFT 32 ragged) = Normal (tt, this') /\
    direction this' = LEFT.
Proof.
  destruct (reversal_immediate (mk 16 0 2 RIGHT LEFT 32 ragged)) as (this' & Hm & Hd & _);
    [reflexivity|].
  exists this'. by split.
Defined.



Lemma advance_other_fields this col row :
  speed (advance this col row) = speed this /\
  tileSize (advance this col row) = tileSize this /\
  mazeMap (advance this col row) = mazeMap this.
Proof.
  unfold advance. destruct (negb _); [|done].
  by destruct (direction this) eqn:Hd.
Qed.

(** No method writes [speed]: it is 2 in every state of an agent. *)
Lemma agentState_speed this : agentState this -> speed this = 2%Q.
Proof.
  induction 1 as [| this this' _ IH Hmove | d this this' _ IH Hchange]; [done|..].
  - injection Hmove as <-.
    destruct (advance_other_fields
                (arbitrate this (x this / tileSize this) (y this / tileSize this))
                (x this / tileSize this) (y this / tileSize this)) as (-> & _).
    by destruct (arbitrate_fields this (x this / tileSize this) (y this / tileSize this))
      as (_ & _ & -> & _).
  - by injection Hchange as <-.
Qed.

Lemma wallAhead_arbitrate this col row col' row' d :
  wallAhead (arbitrate this col row) col' row' d = wallAhead this col' row' d.
Proof.
  unfold wallAhead.
  by destruct (arbitrate_fields this col row) as (_ & _ & _ & _ & -> & _).
Qed.



Lemma checkWinCondition_eq this :
  let col := Math_floor (x this / tileSize this) in
  let row := Math_floor (y this / tileSize this) in
  let exit c r := tileIs (MazeMap.getTile (mazeMap this) c r) MazeMap.Exit in
  checkWinCondition this =
  Normal (exit col row || exit (col + 1) row || exit (col - 1) row
          || exit col (row + 1) || exit col (row - 1), this).
Proof.
  intros col row exit. unfold checkWinCondition. fold col row.
  rewrite !isEndPosition_getTile. fold (exit col row) (exit (col + 1) row)
    (exit (col - 1) row) (exit col (row + 1)) (exit col (row - 1)). simpl.
  destruct (exit col row); [done|]. destruct (exit (col + 1) row); [done|].
  destruct (exit (col - 1) row); [done|]. destruct (exit col (row + 1)); [done|].
  by destruct (exit col (row - 1)).
Qed.

Lemma tileIs_isExit maze c r :
  tileIs (MazeMap.getTile maze c r) MazeMap.Exit = true <-> isExit maze c r.
Proof.
  unfold isExit. rewrite getTile_eq. simpl.
  destruct (if checks maze c r then _ else _) as [|b|n]; simpl.
  - split; [done | by intros [=]].
  - split; [done | by intros [=]].
  - rewrite Z.eqb_eq. split; [by intros -> | by intros [=]].
Qed.



End Agent.

(** * Further properties *)

(** ** The grid the constructor builds *)

Section GridFacts.

Import Js MazeMap Spec.
Implicit Types (this : MazeMap.t) (x y col row : Z) (m : list (list Z))
  (layout : list Z) (ts : Q).





Lemma length_split sep s :
  length (split sep s) = S (length (filter (fun c => c = sep) s)).
Proof.
  induction s as [|c s IH]; [done|]. simpl split.
  destruct (Z.eqb_spec c sep) as [->|Hne].
  - rewrite filter_cons_True by done. simpl. by rewrite IH.
  - rewrite filter_cons_False by done.
    destruct (split sep s) as [|r rs]; [by destruct (split_nonempty sep s)|].
    simpl in *. done.
Qed.

(** X2: the grid has the shape of the layout: one row more than the layout
    has line feeds (so at least one row), and a cell exactly where the
    layout has a character; the constructor never throws. *)
Theorem constructed_shape layout ts :
  exists this,
    construct layout ts = Normal this /\
    rows this = 1 + len (filter (fun c => c = 10) layout) /\
    forall col row,
      is_Some (stored (map this) col row) <-> is_Some (charAt layout col row).
Proof.
  destruct (construct_total layout ts) as (this & Hc & Hlen & Hprom & _).
  exists this. split; [done|]. split.
  - unfold rows, len. rewrite Hlen, parsed_eq, length_fmap, length_split. lia.
  - intros col row.
    assert (is_Some (stored (parsed layout ts) col row) <->
            is_Some (charAt layout col row)) as <-.
    { rewrite parsed_stored. apply fmap_is_Some. }
    destruct (Hprom col row) as [->|([Hp|Hp] & _ & ->)]; [done|..];
      rewrite Hp; split; eauto.
Qed.

(** X3: a layout without start glyph leaves the start position at the
    origin. *)
Theorem start_defaults_to_origin layout ts :
  0x58 ∉ layout ->
  exists this, construct layout ts = Normal this /\ getStartPosition this = (0, 0)%Q.
Proof.
  intros HnoX.
  destruct (construct_total layout ts) as (this & Hc & _ & _ & _ & Hst & _).
  exists this. split; [done|]. rewrite Hst. unfold parsedState.
  rewrite parseRows_start_absent; [done | by apply absent_rows].
Qed.

Lemma start_defaults_to_origin_witness :
  exists this, construct (str "··
·E") 32 = Normal this /\ getStartPosition this = (0, 0)%Q.
Proof.
  apply start_defaults_to_origin.
  vm_compute str. rewrite !not_elem_of_cons. repeat split; try done. apply not_elem_of_nil.
Defined.






Lemma and_row_truthy (o : option (list Z)) col :
  truthy (and_row o (fun r => strict_eq (elem r col) 1)) = true <->
  (o ≫= fun r => at_index r col) = Some Wall.
Proof.
  destruct o as [l|]; simpl; [|split; discriminate].
  unfold elem. destruct (at_index l col) as [t|]; simpl; [|split; discriminate].
  rewrite Z.eqb_eq. split; [by intros -> | by intros [=]].
Qed.

(** X6: [wallCollision] is truthy exactly when the grid stores a wall in the
    adjacent cell, for every cell and direction, inside the grid or not:
    a wall is seen alike from all its neighbours, and a cell the grid
    does not have never blocks. *)
Theorem wallCollision_stored this col row d :
  truthy (wallCollision this col row d) = true <->
  stored (map this) (neighbour col row d).1 (neighbour col row d).2 = Some Wall.
Proof. destruct d; apply and_row_truthy. Qed.

End GridFacts.

(** ** Positions counted in steps *)

Section Steps.

Import Js.
Implicit Types (s ts a : Q) (n c k j : Z).

Lemma scale_eq s (i j : Z) : ~ s == 0 -> inject_Z i * s == inject_Z j * s -> i = j.
Proof.
  intros Hs H. apply Qmult_inj_r in H; [|done]. by apply inject_Z_injective.
Qed.

Lemma scale_lt s (i j : Z) : (0 < s)%Q -> (inject_Z i * s < inject_Z j * s)%Q <-> i < j.
Proof. intros Hs. by rewrite Qmult_lt_r, <- Zlt_Qlt. Qed.

Lemma tile_nonzero s ts n : (0 < s)%Q -> 0 < n -> ts == inject_Z n * s -> ~ ts == 0.
Proof.
  intros Hs Hn Hts H0. rewrite Hts in H0.
  apply Qmult_integral in H0 as [H0|H0].
  - change 0%Q with (inject_Z 0) in H0.
    apply (proj1 (inject_Z_injective _ _)) in H0. lia.
  - clear -Hs H0. lra.
Qed.

(** A coordinate [k] steps past a tile boundary, as a number of steps. *)
Lemma in_steps s ts a n c k :
  ts == inject_Z n * s -> a == inject_Z c * ts + inject_Z k * s ->
  a == inject_Z (c * n + k) * s.
Proof.
  intros Hts Ha. rewrite Ha, Hts, inject_Z_plus, inject_Z_mult. ring.
Qed.

Lemma tiles_in_steps s ts n c :
  ts == inject_Z n * s -> inject_Z c * ts == inject_Z (c * n) * s.
Proof. intros Hts. rewrite Hts, inject_Z_mult. ring. Qed.

(** On a tile boundary the quotient is the integer index of the tile. *)
Lemma on_boundary ts a c :
  ~ ts == 0 -> a == inject_Z c * ts ->
  Number_isInteger (a / ts) = true /\ Qfloor (a / ts) = c.
Proof.
  intros Hts Ha. apply div_integer in Ha; [|done]. split.
  - apply Number_isInteger_spec. eauto.
  - by apply Qfloor_integer.
Qed.

(** Strictly between two boundaries the quotient is no integer. *)
Lemma off_boundary s ts a n c k :
  (0 < s)%Q -> ts == inject_Z n * s -> 0 < k < n ->
  a == inject_Z c * ts + inject_Z k * s ->
  Number_isInteger (a / ts) = false.
Proof.
  intros Hs Hts Hk Ha.
  assert (~ ts == 0) as Hnz by (apply (tile_nonzero s ts n); [done | lia | done]).
  apply not_true_iff_false. intros [j Hj]%Number_isInteger_spec.
  apply div_integer in Hj; [|done].
  assert (j * n = c * n + k) as Heq;
    [|assert (0 < (j - c) * n < n) by lia; destruct (Z.le_gt_cases (j - c) 0); nia].
  apply (scale_eq s); [clear -Hs; lra|].
  rewrite <- (tiles_in_steps s ts n j Hts), <- Hj.
  by apply (in_steps s ts).
Qed.

End Steps.

(** ** The agent among the walls *)

Section AgentFacts.

Import Js Player Spec.
Implicit Types (this : Player.t) (d : Direction) (col row n k : Z).

Lemma wallCollision_wall maze col row d :
  truthy (MazeMap.wallCollision maze col row d) = true <->
  stored (MazeMap.map maze) (neighbour col row d).1 (neighbour col row d).2 =
  Some MazeMap.Wall.
Proof. destruct d; apply and_row_truthy. Qed.

(** What a tick does to the fields, whichever way the direction was
    arbitrated. *)
Lemma move_fields this :
  exists this',
    move this = Normal (tt, this') /\
    speed this' = speed this /\ tileSize this' = tileSize this /\
    mazeMap this' = mazeMap this /\
    requestedDirection this' = requestedDirection this /\
    direction this' =
      direction (arbitrate this (x this / tileSize this) (y this / tileSize this)) /\
    (if wallAhead this (x this / tileSize this) (y this / tileSize this) (direction this')
     then x this' = x this /\ y this' = y this
     else match direction this' with
          | UP => x this' = x this /\ y this' = (y this - speed this)%Q
          | DOWN => x this' = x this /\ y this' = (y this + speed this)%Q
          | LEFT => x this' = (x this - speed this)%Q /\ y this' = y this
          | RIGHT => x this' = (x this + speed this)%Q /\ y this' = y this
          end).
Proof.
  eexists. split; [reflexivity|].
  set (col := (x this / tileSize this)%Q). set (row := (y this / tileSize this)%Q).
  set (a := arbitrate this col row).
  destruct (arbitrate_fields this col row) as (Hx & Hy & Hs & Hts & Hm & Hr).
  fold a in Hx, Hy, Hs, Hts, Hm, Hr.
  destruct (advance_other_fields a col row) as (-> & -> & ->).
  destruct (advance_fields a col row) as (-> & ->).
  split; [done|]. split; [done|]. split; [done|]. split; [done|]. split; [done|].
  rewrite <- (wallAhead_arbitrate this col row). fold a.
  unfold advance. destruct (wallAhead a col row (direction a)); simpl.
  - by rewrite Hx, Hy.
  - destruct (direction a) eqn:Hd; simpl; by rewrite Hx, Hy, Hs.
Qed.

Lemma arbitrate_unaligned this (col row : Q) :
  Number_isInteger col && Number_isInteger row = false ->
  direction (arbitrate this col row) = direction this \/
  direction (arbitrate this col row) = opposite (direction this).
Proof.
  intros Hoff. unfold arbitrate. rewrite Hoff. simpl.
  case_bool_decide; [|by left].
  destruct (reverses _ _) eqn:Hrev; [|by left].
  right. simpl. by apply opposite_reverses.
Qed.

Lemma wallAhead_unaligned this (col row : Q) d :
  Number_isInteger col && Number_isInteger row = false ->
  wallAhead this col row d = false.
Proof. intros Hoff. unfold wallAhead. by rewrite Hoff. Qed.

Lemma wallAhead_aligned this (col row : Q) c r d :
  Number_isInteger col = true -> Qfloor col = c ->
  Number_isInteger row = true -> Qfloor row = r ->
  wallAhead this col row d = truthy (MazeMap.wallCollision (mazeMap this) c r d).
Proof. intros Hc <- Hr <-. unfold wallAhead. by rewrite Hc, Hr. Qed.

Ltac steps :=
  unfold Z.sub;
  repeat first [rewrite inject_Z_plus | rewrite inject_Z_opp | rewrite inject_Z_mult];
  change (inject_Z 1) with 1%Q; change (inject_Z 0) with 0%Q.

(** The three ways of being clear of the walls. *)
Lemma clear_on_cell this n col row :
  (0 < speed this)%Q -> 0 < n -> tileSize this == inject_Z n * speed this ->
  notWall (mazeMap this) col row ->
  x this == inject_Z col * tileSize this -> y this == inject_Z row * tileSize this ->
  clearOfWalls this.
Proof.
  intros Hs Hn Hts Hcell Hx Hy. exists n, col, row, 0.
  split; [done|]. split; [done|]. split; [done|]. split; [lia|]. split; [done|].
  by left.
Qed.

Lemma clear_across this n col row k :
  (0 < speed this)%Q -> tileSize this == inject_Z n * speed this -> 0 < k < n ->
  notWall (mazeMap this) col row -> notWall (mazeMap this) (col + 1) row ->
  x this == inject_Z col * tileSize this + inject_Z k * speed this ->
  y this == inject_Z row * tileSize this ->
  direction this = LEFT \/ direction this = RIGHT ->
  clearOfWalls this.
Proof.
  intros Hs Hts Hk Hcell Hnext Hx Hy Hd. exists n, col, row, k.
  split; [done|]. split; [lia|]. split; [done|]. split; [lia|]. split; [done|].
  right. left. split; [lia|]. done.
Qed.

Lemma clear_down this n col row k :
  (0 < speed this)%Q -> tileSize this == inject_Z n * speed this -> 0 < k < n ->
  notWall (mazeMap this) col row -> notWall (mazeMap this) col (row + 1) ->
  x this == inject_Z col * tileSize this ->
  y this == inject_Z row * tileSize this + inject_Z k * speed this ->
  direction this = UP \/ direction this = DOWN ->
  clearOfWalls this.
Proof.
  intros Hs Hts Hk Hcell Hnext Hx Hy Hd. exists n, col, row, k.
  split; [done|]. split; [lia|]. split; [done|]. split; [lia|]. split; [done|].
  right. right. split; [lia|]. done.
Qed.

Lemma move_keeps_clear this :
  clearOfWalls this ->
  exists this', move this = Normal (tt, this') /\ clearOfWalls this'.
Proof.
  intros (n & c & r & k & Hs & Hn & Hts & Hk & Hcell & Hpos).
  destruct (move_fields this) as (this' & Hmove & Hs' & Hts' & Hm' & _ & Hd' & Hstep).
  exists this'. split; [done|].
  assert (~ tileSize this == 0) as Hnz by by apply (tile_nonzero (speed this) _ n).
  destruct Hpos as [[-> [Hx Hy]] | [(Hk0 & Hx & Hy & Hdir & Hnext) | (Hk0 & Hx & Hy & Hdir & Hnext)]].
  - (* on a cell *)
    destruct (on_boundary _ _ _ Hnz Hx) as [Hic Hfc].
    destruct (on_boundary _ _ _ Hnz Hy) as [Hir Hfr].
    rewrite (wallAhead_aligned this _ _ c r _ Hic Hfc Hir Hfr) in Hstep.
    destruct (truthy _) eqn:Hwall in Hstep.
    { destruct Hstep as [Hx' Hy'].
      apply (clear_on_cell this' n c r); rewrite ?Hs', ?Hts', ?Hm', ?Hx', ?Hy'; done. }
    assert (notWall (mazeMap this) (neighbour c r (direction this')).1
                    (neighbour c r (direction this')).2) as Hfree.
    { intros Hst. apply wallCollision_wall in Hst. congruence. }
    destruct (direction this') eqn:Hd; simpl in Hfree; destruct Hstep as [Hx' Hy'].
    + (* UP *)
      destruct (decide (n = 1)) as [->|Hn1].
      * apply (clear_on_cell this' 1 c (r - 1)); rewrite ?Hs', ?Hts', ?Hm', ?Hx', ?Hy'; try done.
        rewrite Hy, Hts. steps. ring.
      * apply (clear_down this' n c (r - 1) (n - 1)); rewrite ?Hs', ?Hts', ?Hm', ?Hx', ?Hy';
          try done; [lia | by replace (r - 1 + 1) with r by lia | | by left].
        rewrite Hy, Hts. steps. ring.
    + (* DOWN *)
      destruct (decide (n = 1)) as [->|Hn1].
      * apply (clear_on_cell this' 1 c (r + 1)); rewrite ?Hs', ?Hts', ?Hm', ?Hx', ?Hy'; try done.
        rewrite Hy, Hts. steps. ring.
      * apply (clear_down this' n c r 1); rewrite ?Hs', ?Hts', ?Hm', ?Hx', ?Hy';
          try done; [lia | | by right].
        rewrite Hy. steps. ring.
    + (* LEFT *)
      destruct (decide (n = 1)) as [->|Hn1].
      * apply (clear_on_cell this' 1 (c - 1) r); rewrite ?Hs', ?Hts', ?Hm', ?Hx', ?Hy'; try done.
        rewrite Hx, Hts. steps. ring.
      * apply (clear_across this' n (c - 1) r (n - 1)); rewrite ?Hs', ?Hts', ?Hm', ?Hx', ?Hy';
          try done; [lia | by replace (c - 1 + 1) with c by lia | | by left].
        rewrite Hx, Hts. steps. ring.
    + (* RIGHT *)
      destruct (decide (n = 1)) as [->|Hn1].
      * apply (clear_on_cell this' 1 (c + 1) r); rewrite ?Hs', ?Hts', ?Hm', ?Hx', ?Hy'; try done.
        rewrite Hx, Hts. steps. ring.
      * apply (clear_across this' n c r 1); rewrite ?Hs', ?Hts', ?Hm', ?Hx', ?Hy';
          try done; [lia | | by right].
        rewrite Hx. steps. ring.
  - (* between two cells of a row *)
    assert (Number_isInteger (x this / tileSize this)
            && Number_isInteger (y this / tileSize this) = false) as Hoff.
    { rewrite (off_boundary (speed this) _ (x this) n c k); [done | done | done | lia | done]. }
    rewrite (wallAhead_unaligned _ _ _ _ Hoff) in Hstep.
    assert (direction this' = LEFT \/ direction this' = RIGHT) as [Hd|Hd].
    { rewrite Hd'. destruct (arbitrate_unaligned this _ _ Hoff) as [-> | ->];
        destruct Hdir as [-> | ->]; simpl; auto. }
    + rewrite Hd in Hstep. destruct Hstep as [Hx' Hy'].
      destruct (decide (k = 1)) as [->|Hk1].
      * apply (clear_on_cell this' n c r); rewrite ?Hs', ?Hts', ?Hm', ?Hx', ?Hy'; try done.
        rewrite Hx. steps. ring.
      * apply (clear_across this' n c r (k - 1)); rewrite ?Hs', ?Hts', ?Hm', ?Hx', ?Hy';
          try done; [lia | | by left].
        rewrite Hx. steps. ring.
    + rewrite Hd in Hstep. destruct Hstep as [Hx' Hy'].
      destruct (decide (k + 1 = n)) as [<-|Hkn].
      * apply (clear_on_cell this' (k + 1) (c + 1) r); rewrite ?Hs', ?Hts', ?Hm', ?Hx', ?Hy'; try done.
        rewrite Hx, Hts. steps. ring.
      * apply (clear_across this' n c r (k + 1)); rewrite ?Hs', ?Hts', ?Hm', ?Hx', ?Hy';
          try done; [lia | | by right].
        rewrite Hx. steps. ring.
  - (* between two cells of a column *)
    assert (Number_isInteger (x this / tileSize this)
            && Number_isInteger (y this / tileSize this) = false) as Hoff.
    { rewrite (off_boundary (speed this) _ (y this) n r k);
        [apply andb_false_r | done | done | lia | done]. }
    rewrite (wallAhead_unaligned _ _ _ _ Hoff) in Hstep.
    assert (direction this' = UP \/ direction this' = DOWN) as [Hd|Hd].
    { rewrite Hd'. destruct (arbitrate_unaligned this _ _ Hoff) as [-> | ->];
        destruct Hdir as [-> | ->]; simpl; auto. }
    + rewrite Hd in Hstep. destruct Hstep as [Hx' Hy'].
      destruct (decide (k = 1)) as [->|Hk1].
      * apply (clear_on_cell this' n c r); rewrite ?Hs', ?Hts', ?Hm', ?Hx', ?Hy'; try done.
        rewrite Hy. steps. ring.
      * apply (clear_down this' n c r (k - 1)); rewrite ?Hs', ?Hts', ?Hm', ?Hx', ?Hy';
          try done; [lia | | by left].
        rewrite Hy. steps. ring.
    + rewrite Hd in Hstep. destruct Hstep as [Hx' Hy'].
      destruct (decide (k + 1 = n)) as [<-|Hkn].
      * apply (clear_on_cell this' (k + 1) c (r + 1)); rewrite ?Hs', ?Hts', ?Hm', ?Hx', ?Hy'; try done.
        rewrite Hy, Hts. steps. ring.
      * apply (clear_down this' n c r (k + 1)); rewrite ?Hs', ?Hts', ?Hm', ?Hx', ?Hy';
          try done; [lia | | by right].
        rewrite Hy. steps. ring.
Qed.



Lemma changeDirection_clear_of_walls d this :
  clearOfWalls this ->
  exists this', changeDirection d this = Normal (tt, this') /\ clearOfWalls this' /\
    this' = set_requestedDirection this d.
Proof. intros Hclear. eexists. split; [reflexivity|]. split; [exact Hclear | done]. Qed.

Lemma overlap_steps (s ts a : Q) (n A c' : Z) :
  (0 < s)%Q -> ts == inject_Z n * s -> a == inject_Z A * s ->
  (inject_Z c' * ts < a + ts)%Q -> (a < (inject_Z c' + 1) * ts)%Q ->
  c' * n < A + n /\ A < (c' + 1) * n.
Proof.
  intros Hs Hts Ha Hlow Hhigh.
  assert (inject_Z (c' * n) * s == inject_Z c' * ts) as H1 by (rewrite Hts; steps; ring).
  assert (inject_Z (A + n) * s == a + ts) as H2 by (rewrite Ha, Hts; steps; ring).
  assert (inject_Z ((c' + 1) * n) * s == (inject_Z c' + 1) * ts) as H3
    by (rewrite Hts; steps; ring).
  split; apply (scale_lt s); try done.
  - by rewrite H1, H2.
  - by rewrite <- Ha, H3.
Qed.

Lemma cell_of_steps (n c k c' : Z) :
  0 < n -> 0 <= k < n -> c' * n < c * n + k + n -> c * n + k < (c' + 1) * n ->
  c' = c \/ (c' = c + 1 /\ 0 < k).
Proof.
  intros Hn Hk Hlow Hhigh.
  assert (0 <= c' - c) by (destruct (Z.le_gt_cases 0 (c' - c)); [done | nia]).
  assert (c' - c <= 1) by (destruct (Z.le_gt_cases (c' - c) 1); [done | nia]).
  assert (c' = c \/ c' = c + 1) as [-> | ->] by lia; [by left|].
  right. split; [done | nia].
Qed.

Lemma clear_overlap this col row :
  clearOfWalls this -> overlaps this col row -> notWall (mazeMap this) col row.
Proof.
  intros (n & c & r & k & Hs & Hn & Hts & Hk & Hcell & Hpos) (Hx1 & Hx2 & Hy1 & Hy2).
  assert (exists kx ky,
            x this == inject_Z (c * n + kx) * speed this /\
            y this == inject_Z (r * n + ky) * speed this /\
            0 <= kx < n /\ 0 <= ky < n /\ (kx = 0 \/ ky = 0) /\
            (0 < kx -> notWall (mazeMap this) (c + 1) r) /\
            (0 < ky -> notWall (mazeMap this) c (r + 1)))
    as (kx & ky & Hx & Hy & Hkx & Hky & Hone & Hright & Hbelow).
  { destruct Hpos as [[-> [Hx Hy]] | [(Hk0 & Hx & Hy & _ & Hnext) | (Hk0 & Hx & Hy & _ & Hnext)]].
    - exists 0, 0. rewrite !Z.add_0_r, <- !(tiles_in_steps _ _ _ _ Hts).
      split; [done|]. split; [done|]. split; [lia|]. split; [lia|]. split; [by left|].
      split; intros; lia.
    - exists k, 0. rewrite Z.add_0_r, <- (tiles_in_steps _ _ _ r Hts).
      split; [by apply (in_steps _ (tileSize this))|]. split; [done|].
      split; [lia|]. split; [lia|]. split; [by right|]. split; [done | intros; lia].
    - exists 0, k. rewrite Z.add_0_r, <- (tiles_in_steps _ _ _ c Hts).
      split; [done|]. split; [by apply (in_steps _ (tileSize this))|].
      split; [lia|]. split; [lia|]. split; [by left|]. split; [intros; lia | done]. }
  destruct (overlap_steps _ _ _ n _ col Hs Hts Hx Hx1 Hx2) as [Hc1 Hc2].
  destruct (overlap_steps _ _ _ n _ row Hs Hts Hy Hy1 Hy2) as [Hr1 Hr2].
  destruct (cell_of_steps n c kx col) as [-> | [-> Hpx]]; [lia..|done| |];
    destruct (cell_of_steps n r ky row) as [-> | [-> Hpy]]; try lia; try done; auto.
Qed.

(** X8: an agent that is clear of the walls has no wall under it: every
    cell its box overlaps is stored as something else than [Wall], or is
    not in the grid. *)
Theorem clear_of_walls_overlap this col row :
  clearOfWalls this -> overlaps this col row -> notWall (mazeMap this) col row.
Proof. apply clear_overlap. Qed.

Lemma clear_of_walls_overlap_witness :
  overlaps (mk 16 32 2 RIGHT UP 32 ragged) 0 1 /\
  notWall ragged 0 1.
Proof.
  assert (overlaps (mk 16 32 2 RIGHT UP 32 ragged) 0 1) as Hover by by vm_compute.
  split; [done|].
  apply (clear_of_walls_overlap (mk 16 32 2 RIGHT UP 32 ragged) 0 1); [|done].
  exists 16, 0, 1, 8. split; [by vm_compute|]. split; [lia|]. split; [by vm_compute|].
  split; [lia|]. split; [by vm_compute|].
  right. left. split; [lia|]. split; [by vm_compute|]. split; [by vm_compute|].
  split; [by right | by vm_compute].
Defined.



End AgentFacts.


(** ** The game *)

Section GameFacts.

Import Js Spec.
Implicit Types (g : Game.t) (e : event) (events : list event) (key : string).

Lemma keydown_afterKey key g : Game.keydown key g = Normal (afterKey key g).
Proof.
  unfold Game.keydown, afterKey. destruct (Game.gameWon g); [done|].
  unfold started, Game.onKey, arrow.
  destruct (negb (Game.gameStarted g));
    (destruct (String.eqb_spec key "ArrowUp") as [->|_]; [reflexivity|]);
    (destruct (String.eqb_spec key "ArrowDown") as [->|_]; [reflexivity|]);
    (destruct (String.eqb_spec key "ArrowLeft") as [->|_]; [reflexivity|]);
    (destruct (String.eqb_spec key "ArrowRight") as [->|_]; reflexivity).
Qed.

Lemma step_won e g : Game.gameWon g = true -> step e g = Normal g.
Proof.
  intros Hwon. destruct e as [key|]; simpl.
  - unfold Game.keydown. by rewrite Hwon.
  - unfold Game.gameLoop. by rewrite Hwon.
Qed.

(** X11: once the game is won nothing moves any more: whatever keys are
    pressed and however many frames follow, the variables of the game,
    the player among them, stay as they are, and nothing throws. *)
Theorem won_game_is_frozen events g :
  Game.gameWon g = true -> run events g = Normal g.
Proof.
  intros Hwon. induction events as [|e events IH]; [done|].
  simpl. by rewrite step_won.
Qed.

Lemma won_game_is_frozen_witness :
  run [KeyDown "ArrowLeft"; Frame; Frame; KeyDown "ArrowUp"; Frame]
    (Game.set_won (Game.mk ragged (Player.mk 40 10 2 RIGHT RIGHT 32 ragged) false true
                     "Navigate to the red circle to escape!" None (Canvas.mkSize 64 96))) =
  Normal (Game.set_won (Game.mk ragged (Player.mk 40 10 2 RIGHT RIGHT 32 ragged) false true
                     "Navigate to the red circle to escape!" None (Canvas.mkSize 64 96))).
Proof.
  by apply won_game_is_frozen.
Defined.

(** X12: only the last arrow key pressed before a frame counts: a key press
    followed by the press of an arrow key leaves the game as the arrow key
    alone does. *)
Theorem last_arrow_wins key1 key2 d g :
  arrow key2 = Some d ->
  run [KeyDown key1; KeyDown key2] g = run [KeyDown key2] g.
Proof.
  intros Harrow. simpl. rewrite !keydown_afterKey. simpl. rewrite keydown_afterKey.
  f_equal. unfold afterKey. rewrite Harrow.
  destruct (Game.gameWon g) eqn:Hwon; [by rewrite Hwon|].
  unfold started.
  destruct (arrow key1), (Game.gameStarted g) eqn:Hs; simpl; rewrite ?Hwon, ?Hs; done.
Qed.

Lemma last_arrow_wins_witness :
  run [KeyDown "ArrowUp"; KeyDown "ArrowLeft"]
    (Game.mk ragged (Player.mk 16 32 2 RIGHT RIGHT 32 ragged) false false
       "Navigate to the red circle to escape!" None (Canvas.mkSize 64 96)) =
  run [KeyDown "ArrowLeft"]
    (Game.mk ragged (Player.mk 16 32 2 RIGHT RIGHT 32 ragged) false false
       "Navigate to the red circle to escape!" None (Canvas.mkSize 64 96)).
Proof.
  by apply (last_arrow_wins "ArrowUp" "ArrowLeft" LEFT).
Defined.

Lemma checkWinCondition_nearExit (agent : Player.t) :
  exists b, Player.checkWinCondition agent = Normal (b, agent) /\
    (b = true <-> nearExit agent).
Proof.
  eexists. split; [apply checkWinCondition_eq|].
  unfold nearExit, Math_floor. rewrite <- !tileIs_isExit.
  repeat match goal with |- context [tileIs ?c MazeMap.Exit] =>
    generalize (tileIs c MazeMap.Exit); intros ? end.
  repeat match goal with b : bool |- _ => destruct b end; simpl; intuition discriminate.
Qed.

Lemma frame_not_won g p b :
  Game.gameWon g = false ->
  Player.move (Game.player g) = Normal (tt, p) ->
  Player.checkWinCondition p = Normal (b, p) ->
  step Frame g =
  Normal (if b then Game.set_won (Game.set_player g p) else Game.set_player g p).
Proof.
  intros Hwon Hmove Hcheck. unfold step, Game.gameLoop.
  rewrite Hwon. cbn [negb]. rewrite Hmove.
  cbn [mbind completion_bind]. rewrite Hcheck.
  cbn [mbind completion_bind]. by destruct b.
Qed.

Lemma step_invariant e g :
  gameInvariant g ->
  exists g', step e g = Normal g' /\ gameInvariant g' /\
    Game.mazeMap g' = Game.mazeMap g /\ Game.canvas g' = Game.canvas g.
Proof.
  intros Hinv. destruct (Game.gameWon g) eqn:Hwon.
  { exists g. by rewrite step_won. }
  destruct Hinv as (Hclear & Hnear & Htext & Hcolor).
  destruct e as [key|].
  - cbn [step]. rewrite keydown_afterKey. eexists. split; [done|].
    unfold afterKey, started. rewrite Hwon.
    destruct (arrow key), (Game.gameStarted g); simpl;
      (split; [|done]); unfold gameInvariant; simpl; done.
  - destruct (move_keeps_clear _ Hclear) as (p & Hmove & Hclear').
    destruct (checkWinCondition_nearExit p) as (b & Hcheck & Hb).
    rewrite (frame_not_won g p b Hwon Hmove Hcheck).
    destruct b; eexists; (split; [done|]); (split; [|done]);
      unfold gameInvariant; simpl.
    + split; [done|]. split; [intros _; by apply Hb|]. split; split; done.
    + split; [done|]. split; [intros Hw; rewrite Hwon in Hw; discriminate|].
      split; assumption.
Qed.

Lemma run_invariant events : forall g,
  gameInvariant g ->
  exists g', run events g = Normal g' /\ gameInvariant g' /\
    Game.mazeMap g' = Game.mazeMap g /\ Game.canvas g' = Game.canvas g.
Proof.
  induction events as [|e events IH]; intros g Hinv; [by exists g|].
  destruct (step_invariant e g Hinv) as (g1 & Hstep & Hinv1 & Hm1 & Hc1).
  destruct (IH g1 Hinv1) as (g' & Hrun & Hinv' & Hm' & Hc').
  exists g'. simpl. rewrite Hstep. simpl. split; [done|]. split; [done|].
  split; congruence.
Qed.

(** The script's set-up never throws and leaves the game with its
    player clear of the walls: half a tile into the start cell, heading
    RIGHT, the start cell and the one to its right being no walls. *)
Lemma init_invariant :
  exists g, Game.init = Normal g /\ gameInvariant g.
Proof.
  eexists. split; [vm_compute; reflexivity|].
  split; [|split; [discriminate|split; split; discriminate]].
  exists 16, 13, 23, 8. split; [by vm_compute|]. split; [lia|]. split; [by vm_compute|].
  split; [lia|]. split; [by vm_compute|].
  right. left. split; [lia|]. split; [by vm_compute|]. split; [by vm_compute|].
  split; [by right | by vm_compute].
Qed.



(** X15: the game as the script starts it: the set-up and the first frame
    never throw, and from there on, whatever keys are pressed and however
    many frames follow, nothing throws, the player's box never overlaps a
    wall tile of the maze, and the game is won only with the player on the
    exit or next to it. *)
Theorem maze_escape_runs :
  exists g0, main = Normal g0 /\
    forall events, exists g,
      run events g0 = Normal g /\
      gameInvariant g /\
      Game.mazeMap g = Game.mazeMap g0 /\
      (forall col row, overlaps (Game.player g) col row ->
         notWall (Player.mazeMap (Game.player g)) col row).
Proof.
  destruct init_invariant as (g & Hinit & Hinv).
  destruct (step_invariant Frame g Hinv) as (g0 & Hstep & Hinv0 & _).
  exists g0. split.
  - unfold main. rewrite Hinit. exact Hstep.
  - intros events. destruct (run_invariant events g0 Hinv0) as (g' & Hrun' & Hinv' & Hm & _).
    exists g'. split; [done|]. split; [done|]. split; [done|].
    intros col row. apply clear_overlap. apply Hinv'.
Qed.

End GameFacts.

(** ** The canvas *)

Section Drawing.

Import Js MazeMap Spec.
Implicit Types (this : MazeMap.t) (size : Canvas.size) (col row : Z)
  (layout : list Z) (ts : Q).

Lemma same_cells_same_length {A B} (l : list A) (l' : list B) :
  (forall i, is_Some (at_index l i) <-> is_Some (at_index l' i)) -> len l = len l'.
Proof.
  intros Hsame. pose proof (Hsame (len l)) as H1. pose proof (Hsame (len l')) as H2.
  rewrite !at_index_is_Some in H1, H2. unfold len in *. lia.
Qed.

Lemma constructed_first_row layout ts this :
  construct layout ts = Normal this ->
  exists l, at_index (map this) 0 = Some l /\
    len l = len (default [] (at_index (split 10 layout) 0)) /\
    tileSize this = ts /\
    len (map this) = 1 + len (filter (fun c => c = 10) layout).
Proof.
  intros Hc. destruct (construct_total layout ts) as (this' & Hc' & Hlen & Hprom & Hts & _).
  rewrite Hc in Hc'. injection Hc' as <-.
  assert (len (map this) = 1 + len (filter (fun c => c = 10) layout)) as Hrows.
  { unfold len. rewrite Hlen, parsed_eq, length_fmap, length_split. lia. }
  destruct (at_index_is_Some (map this) 0) as [_ [l Hl]]; [unfold len in *; lia|].
  exists l. split; [done|]. split; [|done].
  destruct (parsed_row0 layout ts) as [first Hfirst].
  transitivity (len first).
  - apply same_cells_same_length. intros i.
    pose proof (Hprom i 0) as Hcell. unfold promotable, stored in Hcell.
    rewrite Hl, Hfirst in Hcell. simpl in Hcell.
    destruct Hcell as [->|([Hp|Hp] & _ & ->)]; [done|..]; rewrite Hp; split; eauto.
  - rewrite parsed_eq in Hfirst. unfold at_index in *. simpl in *.
    rewrite list_lookup_fmap in Hfirst.
    destruct (split 10 layout !! Z.to_nat 0) as [line|]; [|done].
    injection Hfirst as <-. unfold len. simpl. by rewrite length_fmap.
Qed.

(** X16: [setCanvasSize] on a maze built by the constructor never throws:
    the canvas is as wide as the first line of the layout has characters
    and as high as the layout has lines, in tiles, whatever the lengths of
    the other lines. *)
Theorem canvas_of_layout layout ts this :
  construct layout ts = Normal this ->
  exists size, setCanvasSize this = Normal size /\
    Canvas.width size =
      (inject_Z (len (default [] (at_index (split 10 layout) 0%Z))) * ts)%Q /\
    Canvas.height size =
      (inject_Z (1 + len (filter (fun c => c = 10) layout))%Z * ts)%Q.
Proof.
  intros Hc. destruct (constructed_first_row layout ts this Hc) as (l & Hl & Hlen & Hts & Hrows).
  eexists. unfold setCanvasSize. rewrite Hl. simpl. split; [done|]. simpl.
  by rewrite Hlen, Hts, Hrows.
Qed.

Lemma canvas_of_layout_witness :
  exists this size, MazeMap.new 32 = Normal this /\
    setCanvasSize this = Normal size /\
    Canvas.width size == 896 /\ Canvas.height size == 992.
Proof.
  assert (exists this, MazeMap.new 32 = Normal this) as [this Hc]
    by (eexists; vm_compute; reflexivity).
  destruct (canvas_of_layout literal 32 this Hc) as (size & Hs & Hw & Hh).
  exists this, size. split; [done|]. split; [done|]. rewrite Hw, Hh. by vm_compute.
Defined.

Lemma drawTile_onCanvas this size col row tile (W H : Z) :
  (0 <= tileSize this)%Q ->
  Canvas.width size = (inject_Z W * tileSize this)%Q ->
  Canvas.height size = (inject_Z H * tileSize this)%Q ->
  0 <= col -> col + 1 <= W -> 0 <= row -> row + 1 <= H ->
  Forall (onCanvas size) (drawTile this col row tile).
Proof.
  intros Hts Hw Hh Hc0 Hc1 Hr0 Hr1.
  rewrite Zle_Qle in Hc0, Hc1, Hr0, Hr1. rewrite inject_Z_plus in Hc1, Hr1.
  change (inject_Z 0) with 0%Q in *. change (inject_Z 1) with 1%Q in *.
  unfold drawTile.
  assert (0 <= inject_Z col * tileSize this)%Q as Hx0 by by apply Qmult_le_0_compat.
  assert (0 <= inject_Z row * tileSize this)%Q as Hy0 by by apply Qmult_le_0_compat.
  assert (inject_Z col * tileSize this + tileSize this <= inject_Z W * tileSize this)%Q as Hx1.
  { assert (inject_Z col * tileSize this + tileSize this ==
            (inject_Z col + 1) * tileSize this) as -> by ring.
    by apply Qmult_le_compat_r. }
  assert (inject_Z row * tileSize this + tileSize this <= inject_Z H * tileSize this)%Q as Hy1.
  { assert (inject_Z row * tileSize this + tileSize this ==
            (inject_Z row + 1) * tileSize this) as -> by ring.
    by apply Qmult_le_compat_r. }
  assert (3 * (tileSize this / 3) == tileSize this) as Hthird by field.
  repeat match goal with |- context [?a =? ?b] => destruct (a =? b) end.
  all: repeat constructor.
  all: rewrite ?Hw, ?Hh; clear -Hts Hx0 Hy0 Hx1 Hy1 Hthird;
    set (third := (tileSize this / 3)%Q) in *; clearbody third; lra.
Qed.

Lemma drawLine_onCanvas this size row (W H : Z) tiles : forall col,
  (0 <= tileSize this)%Q ->
  Canvas.width size = (inject_Z W * tileSize this)%Q ->
  Canvas.height size = (inject_Z H * tileSize this)%Q ->
  0 <= col -> col + len tiles <= W -> 0 <= row -> row + 1 <= H ->
  Forall (onCanvas size) (drawLine this row col tiles).
Proof.
  induction tiles as [|tile tiles IH]; intros col Hts Hw Hh Hc0 Hc1 Hr0 Hr1; [constructor|].
  unfold len in Hc1. simpl in Hc1. simpl drawLine. apply Forall_app. split.
  - apply (drawTile_onCanvas _ _ _ _ _ W H); try done; lia.
  - apply IH; try done; unfold len; lia.
Qed.

Lemma drawRows_onCanvas this size (W H : Z) rows : forall row,
  (0 <= tileSize this)%Q ->
  Canvas.width size = (inject_Z W * tileSize this)%Q ->
  Canvas.height size = (inject_Z H * tileSize this)%Q ->
  Forall (fun r => len r <= W) rows ->
  0 <= row -> row + len rows <= H ->
  Forall (onCanvas size) (drawRows this row rows).
Proof.
  induction rows as [|r rows IH]; intros row Hts Hw Hh Hlen Hr0 Hr1; [constructor|].
  apply Forall_cons in Hlen as [Hr Hrows].
  unfold len in Hr1. simpl in Hr1. simpl drawRows. apply Forall_app. split.
  - apply (drawLine_onCanvas _ _ _ W H); try done; lia.
  - apply IH; try done; unfold len; lia.
Qed.

(** X17: [draw] paints every row to its own length, [setCanvasSize] measures
    the first row: with a tile size that is not negative and no row
    longer than the first, every rectangle [draw] fills lies on the
    canvas. *)
Theorem draw_on_canvas this size :
  (0 <= tileSize this)%Q ->
  setCanvasSize this = Normal size ->
  (forall row, rowLength this row <= cols this) ->
  Forall (onCanvas size) (draw this).
Proof.
  intros Hts Hsize Hrows. unfold setCanvasSize in Hsize.
  destruct (at_index (map this) 0) as [l|] eqn:Hl; [|done].
  simpl in Hsize. injection Hsize as <-.
  apply (drawRows_onCanvas _ _ (len l) (len (map this))); try done; try lia.
  apply Forall_forall. intros r [i Hi]%list_elem_of_lookup_1.
  specialize (Hrows (Z.of_nat i)). unfold rowLength, cols in Hrows.
  by rewrite at_index_of_nat, Hi, Hl in Hrows.
Qed.

Lemma draw_on_canvas_witness :
  exists this size, MazeMap.new 32 = Normal this /\
    setCanvasSize this = Normal size /\ Forall (onCanvas size) (draw this).
Proof.
  assert (exists this, MazeMap.new 32 = Normal this /\
            forallb (fun r => len r <=? 28) (map this) = true /\
            at_index (map this) 0 = Some (default [] (at_index (map this) 0)) /\
            len (default [] (at_index (map this) 0)) = 28 /\
            tileSize this = 32%Q) as (this & Hc & Hall & Hfirst & Hlen & Hts).
  { eexists. split; [vm_compute; reflexivity|]. by vm_compute. }
  assert (exists size, setCanvasSize this = Normal size) as [size Hs].
  { unfold setCanvasSize. rewrite Hfirst. simpl. eauto. }
  exists this, size. split; [done|]. split; [done|].
  apply draw_on_canvas; [by rewrite Hts | done |].
  intros row. unfold cols. rewrite Hlen. unfold rowLength.
  destruct (at_index (map this) row) as [r|] eqn:Hr; [|by vm_compute].
  apply at_index_Some in Hr as [_ Hr]. rewrite forallb_forall in Hall.
  apply Z.leb_le, Hall. apply list_elem_of_In. by eapply list_elem_of_lookup_2.
Defined.

(** In a grid with a row longer than the first, [draw] fills a
    rectangle past the right edge of the canvas. *)
Lemma draw_off_canvas_ragged :
  setCanvasSize ragged = Normal (Canvas.mkSize 64 96) /\
  Canvas.fillRect 64 64 32 32 ∈ draw ragged /\
  ~ onCanvas (Canvas.mkSize 64 96) (Canvas.fillRect 64 64 32 32).
Proof.
  split; [reflexivity|]. split.
  - vm_compute draw. repeat first [by left | right].
  - intros (_ & H & _). vm_compute in H. by apply H.
Qed.

End Drawing.

(** ** Smaller facts on the queries, the agent and the keys *)

Section SmallFacts.

Import Js Spec.

(** X18: [isEndPosition] and [getTile] agree on every cell: the one is true
    exactly when the other returns the exit code. *)
Theorem isEndPosition_iff_getTile (maze : MazeMap.t) (col row : Z) :
  MazeMap.isEndPosition maze col row = Normal true <->
  MazeMap.getTile maze col row = Normal (VNum MazeMap.Exit).
Proof.
  rewrite isEndPosition_getTile. fold (isExit maze col row).
  rewrite <- tileIs_isExit. split; [by intros [=] | by intros ->].
Qed.

(** X10: an agent that stands against a wall and is not asked to go another
    way rests: the tick leaves its whole state as it is. *)
Theorem blocked_agent_rests (this : Player.t) :
  ~ Player.tileSize this == 0 ->
  Player.requestedDirection this = Player.direction this ->
  blocked this (Player.direction this) ->
  Player.move this = Normal (tt, this).
Proof.
  intros Hts Hsame Hblocked. apply wallAhead_blocked in Hblocked; [|done].
  unfold Player.move, Player.arbitrate.
  rewrite bool_decide_false by (by intros []).
  unfold Player.advance. by rewrite Hblocked.
Qed.

Lemma blocked_agent_rests_witness :
  Player.move (Player.mk 0 32 2 DOWN DOWN 32 ragged) =
  Normal (tt, Player.mk 0 32 2 DOWN DOWN 32 ragged).
Proof.
  apply blocked_agent_rests; [by vm_compute | done |].
  exists 0, 1. split; [by vm_compute | reflexivity].
Defined.

(** X13: a key press never moves the player nor turns it: it can only change
    the requested direction, and only an arrow key does; it never throws
    and never changes whether the game is won. *)
Theorem keydown_keeps_position (key : string) (g : Game.t) :
  exists g',
    Game.keydown key g = Normal g' /\
    Player.x (Game.player g') = Player.x (Game.player g) /\
    Player.y (Game.player g') = Player.y (Game.player g) /\
    Player.direction (Game.player g') = Player.direction (Game.player g) /\
    Game.gameWon g' = Game.gameWon g /\
    (arrow key = None -> Game.player g' = Game.player g) /\
    (forall d, arrow key = Some d -> Game.gameWon g = false ->
       Player.requestedDirection (Game.player g') = d).
Proof.
  exists (afterKey key g). split; [apply keydown_afterKey|].
  unfold afterKey, started.
  destruct (Game.gameWon g) eqn:Hwon, (arrow key) as [d|], (Game.gameStarted g);
    simpl; rewrite ?Hwon; repeat split; try done; intros d' [=]; done.
Qed.

End SmallFacts.
